(** * kafka.protocol.types: the typed binary codecs of the wire protocol

    A shallow embedding of [kafka/protocol/types.py] and the properties of
    its codecs: the varint reader and writer, the fixed-width integers,
    the length-prefixed strings and byte blobs (classic and compact), the
    [Schema] and [Array] composites and [TaggedField].

    Python integers are unbounded: they are [Z], and the bit operations of
    the source are [Z.land], [Z.lor], [Z.lxor], [Z.shiftl] and [Z.shiftr]
    (arithmetic shift, as in Python).  A [bytes] object is a [list byte].
    A call either returns, raises, or (for the one unbounded loop of the
    file) does not terminate. *)

From Stdlib Require Import ZArith List Lia String Bool.
From coqutil Require Import Byte Z.bitblast.
Import ListNotations.
Local Open Scope Z_scope.
#[local] Set Warnings "-register-all".

(** ** Outcomes *)

(** The exceptions the module can raise.  [ValueError] carries the message
    literal of the source; for the messages built with [format] it is the
    template.  [Unmodelled] is not a Python exception: it marks a call that
    leaves the modelled fragment ([str()] of an object that is not text). *)
Inductive exn : Type :=
| struct_error
| ValueError (message : string)
| TypeError
| AssertionError
| Exception (value : Z)
| UnicodeError
| IndexError
| Unmodelled.

(** [Diverge]: the call does not terminate. *)
Inductive result (A : Type) : Type :=
| Ok (a : A)
| Raise (e : exn)
| Diverge.

Arguments Ok {A} a.
Arguments Raise {A} e.
Arguments Diverge {A}.

Definition bind {A B : Type} (m : result A) (k : A -> result B) : result B :=
  match m with
  | Ok a => k a
  | Raise e => Raise e
  | Diverge => Diverge
  end.

Declare Scope result_scope.
Delimit Scope result_scope with result.
Notation "x <- m ;; k" := (bind m (fun x => k))
  (at level 61, m at next level, right associativity) : result_scope.

(** [try: m except struct.error: raise ValueError(msg)] *)
Definition except_struct_error {A : Type} (m : result A) (msg : string) : result A :=
  match m with
  | Raise struct_error => Raise (ValueError msg)
  | other => other
  end.

(** ** Python values *)

(** [str]: a sequence of code points. *)
Definition text : Type := list Z.

Inductive value : Type :=
| VNone
| VInt (n : Z)
| VBool (b : bool)
| VStr (s : text)
| VBytes (b : list byte)
| VTuple (items : list value)
| VList (items : list value).

(** [len(v)] *)
Definition py_len (v : value) : result Z :=
  match v with
  | VStr s => Ok (Z.of_nat (List.length s))
  | VBytes b => Ok (Z.of_nat (List.length b))
  | VTuple l | VList l => Ok (Z.of_nat (List.length l))
  | VNone | VInt _ | VBool _ => Raise TypeError
  end.

(** The elements [v[0]], [v[1]], ... of a sequence, as indexing and
    iteration give them. *)
Definition py_items (v : value) : result (list value) :=
  match v with
  | VStr s => Ok (map (fun c => VStr [c]) s)
  | VBytes b => Ok (map (fun x => VInt (byte.unsigned x)) b)
  | VTuple l | VList l => Ok l
  | VNone | VInt _ | VBool _ => Raise TypeError
  end.

(** [bool(v)] *)
Definition py_bool (v : value) : bool :=
  match v with
  | VNone => false
  | VInt n => negb (n =? 0)
  | VBool b => b
  | VStr [] | VBytes [] | VTuple [] | VList [] => false
  | _ => true
  end.

(** A value used where an integer is required: [bool] is a subclass of
    [int]. *)
Definition py_index (v : value) : option Z :=
  match v with
  | VInt n => Some n
  | VBool b => Some (if b then 1 else 0)
  | _ => None
  end.

(** ** Text encodings *)

(** [str.encode(encoding)] and [bytes.decode(encoding)] for one encoding. *)
Record Encoding : Type := {
  str_encode : text -> result (list byte);
  bytes_decode : list byte -> result text
}.

Module codecs.

Definition ascii : Encoding := {|
  str_encode s :=
    if forallb (fun c => (0 <=? c) && (c <? 128)) s
    then Ok (map byte.of_Z s) else Raise UnicodeError;
  bytes_decode bs :=
    if forallb (fun x => byte.unsigned x <? 128) bs
    then Ok (map byte.unsigned bs) else Raise UnicodeError
|}.

(** One code point in UTF-8; surrogates and values beyond U+10FFFF have no
    encoding. *)
Definition utf_8_encode_char (c : Z) : result (list byte) :=
  if c <? 0 then Raise UnicodeError
  else if c <? 0x80 then Ok [byte.of_Z c]
  else if c <? 0x800 then
    Ok [byte.of_Z (Z.lor 0xC0 (Z.shiftr c 6));
        byte.of_Z (Z.lor 0x80 (Z.land c 0x3f))]
  else if c <? 0x10000 then
    if (0xD800 <=? c) && (c <=? 0xDFFF) then Raise UnicodeError
    else
      Ok [byte.of_Z (Z.lor 0xE0 (Z.shiftr c 12));
          byte.of_Z (Z.lor 0x80 (Z.land (Z.shiftr c 6) 0x3f));
          byte.of_Z (Z.lor 0x80 (Z.land c 0x3f))]
  else if c <? 0x110000 then
    Ok [byte.of_Z (Z.lor 0xF0 (Z.shiftr c 18));
        byte.of_Z (Z.lor 0x80 (Z.land (Z.shiftr c 12) 0x3f));
        byte.of_Z (Z.lor 0x80 (Z.land (Z.shiftr c 6) 0x3f));
        byte.of_Z (Z.lor 0x80 (Z.land c 0x3f))]
  else Raise UnicodeError.

Fixpoint utf_8_encode (s : text) : result (list byte) :=
  match s with
  | [] => Ok []
  | c :: s' =>
      (b <- utf_8_encode_char c ;;
       r <- utf_8_encode s' ;;
       Ok (b ++ r))%result
  end.

(** A trail byte, [10xxxxxx]. *)
Definition is_trail (x : byte) : bool :=
  (0x80 <=? byte.unsigned x) && (byte.unsigned x <? 0xC0).

Definition trail_bits (x : byte) : Z := Z.land (byte.unsigned x) 0x3f.

(** The strict decoder: overlong forms, surrogates, values beyond U+10FFFF,
    stray trail bytes and truncated sequences are errors. *)
Fixpoint utf_8_decode (data : list byte) : result text :=
  match data with
  | [] => Ok []
  | x0 :: r0 =>
      let b0 := byte.unsigned x0 in
      if b0 <? 0x80 then
        (s <- utf_8_decode r0 ;; Ok (b0 :: s))%result
      else if b0 <? 0xC2 then Raise UnicodeError
      else if b0 <? 0xE0 then
        match r0 with
        | x1 :: r1 =>
            if is_trail x1 then
              let c := Z.lor (Z.shiftl (Z.land b0 0x1f) 6) (trail_bits x1) in
              (s <- utf_8_decode r1 ;; Ok (c :: s))%result
            else Raise UnicodeError
        | _ => Raise UnicodeError
        end
      else if b0 <? 0xF0 then
        match r0 with
        | x1 :: x2 :: r2 =>
            if is_trail x1 && is_trail x2 then
              let c := Z.lor (Z.shiftl (Z.land b0 0x0f) 12)
                         (Z.lor (Z.shiftl (trail_bits x1) 6) (trail_bits x2)) in
              if (c <? 0x800) || ((0xD800 <=? c) && (c <=? 0xDFFF))
              then Raise UnicodeError
              else (s <- utf_8_decode r2 ;; Ok (c :: s))%result
            else Raise UnicodeError
        | _ => Raise UnicodeError
        end
      else if b0 <? 0xF5 then
        match r0 with
        | x1 :: x2 :: x3 :: r3 =>
            if is_trail x1 && is_trail x2 && is_trail x3 then
              let c := Z.lor (Z.shiftl (Z.land b0 0x07) 18)
                         (Z.lor (Z.shiftl (trail_bits x1) 12)
                            (Z.lor (Z.shiftl (trail_bits x2) 6) (trail_bits x3))) in
              if (c <? 0x10000) || (0x10FFFF <? c)
              then Raise UnicodeError
              else (s <- utf_8_decode r3 ;; Ok (c :: s))%result
            else Raise UnicodeError
        | _ => Raise UnicodeError
        end
      else Raise UnicodeError
  end.

(** The default encoding of [String]. *)
Definition utf_8 : Encoding := {|
  str_encode := utf_8_encode;
  bytes_decode := utf_8_decode
|}.

Definition latin_1 : Encoding := {|
  str_encode s :=
    if forallb (fun c => (0 <=? c) && (c <? 256)) s
    then Ok (map byte.of_Z s) else Raise UnicodeError;
  bytes_decode bs := Ok (map byte.unsigned bs)
|}.

End codecs.

(** ** The cursor *)

(** A [BytesIO] being read: only the unread part matters, so the cursor is
    the list of bytes from its position to the end of the buffer. *)
Definition Cursor : Type := list byte.

(** A computation that reads from the cursor.  After a raise the cursor is
    not observed. *)
Definition reader (A : Type) : Type := Cursor -> result (A * Cursor).

Definition ret {A : Type} (a : A) : reader A := fun data => Ok (a, data).

Definition raise {A : Type} (e : exn) : reader A := fun _ => Raise e.

Definition rbind {A B : Type} (m : reader A) (k : A -> reader B) : reader B :=
  fun data =>
    match m data with
    | Ok (a, data') => k a data'
    | Raise e => Raise e
    | Diverge => Diverge
    end.

Declare Scope reader_scope.
Delimit Scope reader_scope with reader.
Bind Scope reader_scope with reader.
Notation "x <- m ;; k" := (rbind m (fun x => k))
  (at level 61, m at next level, right associativity) : reader_scope.

(** [data.read(n)]: up to [n] bytes, all the rest when [n] is negative. *)
Definition read (n : Z) : reader (list byte) :=
  fun data =>
    if n <? 0 then Ok (data, [])
    else Ok (firstn (Z.to_nat n) data, skipn (Z.to_nat n) data).

(** ** struct *)

Module struct.

(** [n] bytes, most significant first, of [u] modulo [2^(8n)]. *)
Fixpoint be_bytes (n : nat) (u : Z) : list byte :=
  match n with
  | O => []
  | S n' => byte.of_Z (Z.shiftr u (8 * Z.of_nat n')) :: be_bytes n' u
  end.

Definition be_value (bs : list byte) : Z :=
  fold_left (fun acc x => acc * 256 + byte.unsigned x) bs 0.

(** [struct.pack(">B", v)] for an integer [v]. *)
Definition pack_B (v : Z) : result (list byte) :=
  if (0 <=? v) && (v <=? 255) then Ok [byte.of_Z v] else Raise struct_error.

(** [Struct('>b' | '>h' | '>i' | '>q').pack], the signed integer of [n]
    bytes. *)
Definition pack_int (n : nat) (v : value) : result (list byte) :=
  match py_index v with
  | Some z =>
      let half := 2 ^ (8 * Z.of_nat n - 1) in
      if (- half <=? z) && (z <? half) then Ok (be_bytes n z)
      else Raise struct_error
  | None => Raise struct_error
  end.

(** [Struct(...).unpack] of the same formats; the source takes the one
    element of the tuple. *)
Definition unpack_int (n : nat) (data : list byte) : result Z :=
  if Nat.eqb (List.length data) n then
    let u := be_value data in
    let half := 2 ^ (8 * Z.of_nat n - 1) in
    Ok (if u <? half then u else u - 2 * half)
  else Raise struct_error.

(** [Struct('>?').pack] and [unpack]. *)
Definition pack_bool (v : value) : result (list byte) :=
  Ok [byte.of_Z (if py_bool v then 1 else 0)].

Definition unpack_bool (data : list byte) : result bool :=
  match data with
  | [x] => Ok (negb (byte.unsigned x =? 0))
  | _ => Raise struct_error
  end.

End struct.

Definition convert_error : string :=
  "Error encountered when attempting to convert value: {!r} to struct format: '{}', hit error: {}".

Definition _pack {A : Type} (f : A -> result (list byte)) (v : A) : result (list byte) :=
  except_struct_error (f v) convert_error.

Definition _unpack {A : Type} (f : list byte -> result A) (data : list byte) : result A :=
  except_struct_error (f data) convert_error.

(** Run a pure call inside a reader. *)
Definition lift {A : Type} (m : result A) : reader A :=
  fun data => match m with
              | Ok a => Ok (a, data)
              | Raise e => Raise e
              | Diverge => Diverge
              end.

(** ** VarInt *)

Module VarInt.

(** [b = buffer.read(1); b = b[0] if len(b) > 0 else 0] *)
Definition read_byte : reader Z :=
  (b <- read 1 ;;
   ret (match b with
        | x :: _ => byte.unsigned x
        | [] => 0
        end))%reader.

(** The [while] loop of [read_unsigned_varint], entered with the
    variables [value], [i] and [b]; [fuel] bounds the iterations. *)
Fixpoint read_unsigned_varint_loop (fuel : nat) (value i b : Z) : reader Z :=
  if negb (Z.land b 0x80 =? 0) then
    match fuel with
    | O => fun _ => Diverge
    | S fuel' =>
        let value := Z.lor value (Z.shiftl (Z.land b 0x7f) i) in
        let i := i + 7 in
        if 28 <? i then raise (Exception value)
        else (b <- read_byte ;;
              read_unsigned_varint_loop fuel' value i b)%reader
    end
  else ret (Z.lor value (Z.shiftl b i)).

(** The guard [i > 28] leaves the loop in its fifth iteration at the
    latest, so five iterations are all it can make. *)
Definition read_unsigned_varint : reader Z :=
  (b <- read_byte ;;
   read_unsigned_varint_loop 5 0 0 b)%reader.

Definition len_decoder : reader Z :=
  (n <- read_unsigned_varint ;; ret (n - 1))%reader.

Definition read_varint : reader Z :=
  (value <- read_unsigned_varint ;;
   ret (Z.lxor (Z.shiftr value 1) (- Z.land value 1)))%reader.

(** The [while] loop of [write_unsigned_varint]; [buffer] is what has
    been written.  [Diverge] when [fuel] iterations do not end it. *)
Fixpoint write_unsigned_varint_loop (fuel : nat) (value : Z) (buffer : list byte)
  : result (list byte) :=
  if negb (Z.land value 0xffffff80 =? 0) then
    match fuel with
    | O => Diverge
    | S fuel' =>
        let b := Z.lor (Z.land value 0x7f) 0x80 in
        (w <- struct.pack_B b ;;
         write_unsigned_varint_loop fuel' (Z.shiftr value 7) (buffer ++ w))%result
    end
  else
    (w <- struct.pack_B value ;; Ok (buffer ++ w))%result.

(** Each iteration shifts [value] right by 7 bits, so after
    [log2 |value|] iterations it is 0 or -1 and stays so: a loop that has
    not ended by then never ends. *)
Definition write_fuel (value : Z) : nat := S (Z.to_nat (Z.log2 (Z.abs value))).

(** The returned [BytesIO], rewound to 0, as the bytes a [read()] of it
    gives. *)
Definition write_unsigned_varint (value : Z) : result (list byte) :=
  write_unsigned_varint_loop (write_fuel value) value [].

Definition write_varint (value : Z) : result (list byte) :=
  write_unsigned_varint (Z.lxor (Z.shiftl value 1) (Z.shiftr value 31)).

Definition len_encoder (value : Z) : result (list byte) :=
  write_unsigned_varint (value + 1).

End VarInt.

(** ** Fixed-width integers and Boolean *)

Module Int8.
Definition encode (v : value) : result (list byte) := _pack (struct.pack_int 1) v.
Definition decode : reader Z :=
  (d <- read 1 ;; lift (_unpack (struct.unpack_int 1) d))%reader.
End Int8.

Module Int16.
Definition encode (v : value) : result (list byte) := _pack (struct.pack_int 2) v.
Definition decode : reader Z :=
  (d <- read 2 ;; lift (_unpack (struct.unpack_int 2) d))%reader.
End Int16.

Module Int32.
Definition encode (v : value) : result (list byte) := _pack (struct.pack_int 4) v.
Definition decode : reader Z :=
  (d <- read 4 ;; lift (_unpack (struct.unpack_int 4) d))%reader.
End Int32.

Module Int64.
Definition encode (v : value) : result (list byte) := _pack (struct.pack_int 8) v.
Definition decode : reader Z :=
  (d <- read 8 ;; lift (_unpack (struct.unpack_int 8) d))%reader.
End Int64.

Module Boolean.
Definition encode (v : value) : result (list byte) := _pack struct.pack_bool v.
Definition decode : reader bool :=
  (d <- read 1 ;; lift (_unpack struct.unpack_bool d))%reader.
End Boolean.

(** ** Length-prefixed data *)

(** The class attributes [len_encoder] and [len_decoder] that the methods
    reach through [cls] or [self.__class__]: a subclass overrides them and
    inherits the methods. *)
Record Class : Type := {
  len_encoder : Z -> result (list byte);
  len_decoder : reader Z
}.

(** [str(v)] *)
Definition py_str (v : value) : result text :=
  match v with
  | VStr s => Ok s
  | _ => Raise Unmodelled
  end.

Module String.

Definition cls : Class := {|
  len_encoder n := Int16.encode (VInt n);
  len_decoder := Int16.decode
|}.

Definition encode (cls : Class) (encoding : Encoding) (v : value) : result (list byte) :=
  match v with
  | VNone => len_encoder cls (-1)
  | _ =>
      (s <- py_str v ;;
       b <- str_encode encoding s ;;
       p <- len_encoder cls (Z.of_nat (List.length b)) ;;
       Ok (p ++ b))%result
  end.

Definition decode (cls : Class) (encoding : Encoding) : reader value :=
  (length <- len_decoder cls ;;
   if length <? 0 then ret VNone
   else
     b <- read length ;;
     if negb (Z.of_nat (List.length b) =? length)
     then raise (ValueError "Buffer underrun decoding string")
     else s <- lift (bytes_decode encoding b) ;; ret (VStr s))%reader.

End String.

Module CompactString.
Definition cls : Class := {|
  len_encoder := VarInt.len_encoder;
  len_decoder := VarInt.len_decoder
|}.
End CompactString.

Module Bytes.

Definition cls : Class := {|
  len_encoder n := Int32.encode (VInt n);
  len_decoder := Int32.decode
|}.

(** [cls.len_encoder(len(value)) + value]: the sum raises [TypeError]
    when [value] is not [bytes]. *)
Definition encode (cls : Class) (v : value) : result (list byte) :=
  match v with
  | VNone => len_encoder cls (-1)
  | _ =>
      (n <- py_len v ;;
       p <- len_encoder cls n ;;
       match v with
       | VBytes b => Ok (p ++ b)
       | _ => Raise TypeError
       end)%result
  end.

Definition decode (cls : Class) : reader value :=
  (length <- len_decoder cls ;;
   if length <? 0 then ret VNone
   else
     b <- read length ;;
     if negb (Z.of_nat (List.length b) =? length)
     then raise (ValueError "Buffer underrun decoding Bytes")
     else ret (VBytes b))%reader.

End Bytes.

Module CompactBytes.
Definition cls : Class := {|
  len_encoder := VarInt.len_encoder;
  len_decoder := VarInt.len_decoder
|}.
End CompactBytes.

(** ** The codec objects *)

(** An instance (or, for the codecs used as classes, the class) of a
    subclass of [AbstractType]. *)
Inductive AbstractType : Type :=
| Int8 | Int16 | Int32 | Int64 | Boolean
| String (encoding : Encoding)
| CompactString (encoding : Encoding)
| Bytes | CompactBytes
| Schema (fields : list (string * AbstractType))
| Array (array_of : AbstractType)
| CompactArray (array_of : AbstractType)
| TaggedField.

Module Schema.
Section methods.
(** [field.encode] and [field.decode], the methods of the field's own
    codec. *)
Variable field_encode : AbstractType -> value -> result (list byte).
Variable field_decode : AbstractType -> reader value.

(** [[field.encode(item[i]) for i, field in enumerate(self.fields)]] *)
Fixpoint encode_fields (fields : list (string * AbstractType)) (item : list value)
  : result (list (list byte)) :=
  match fields with
  | [] => Ok []
  | (_, field) :: fields' =>
      match item with
      | [] => Raise IndexError
      | x :: item' =>
          (e <- field_encode field x ;;
           r <- encode_fields fields' item' ;;
           Ok (e :: r))%result
      end
  end.

Definition encode (fields : list (string * AbstractType)) (item : value)
  : result (list byte) :=
  (n <- py_len item ;;
   if negb (n =? Z.of_nat (List.length fields))
   then Raise (ValueError "Item field count does not match Schema")
   else
     xs <- py_items item ;;
     parts <- encode_fields fields xs ;;
     Ok (List.concat parts))%result.

(** [[field.decode(data) for field in self.fields]] *)
Fixpoint decode_fields (fields : list (string * AbstractType)) : reader (list value) :=
  match fields with
  | [] => ret []
  | (_, field) :: fields' =>
      (x <- field_decode field ;;
       r <- decode_fields fields' ;;
       ret (x :: r))%reader
  end.

Definition decode (fields : list (string * AbstractType)) : reader value :=
  (xs <- decode_fields fields ;; ret (VTuple xs))%reader.
End methods.

End Schema.

Module Array.

Definition cls : Class := {|
  len_encoder n := Int32.encode (VInt n);
  len_decoder := Int32.decode
|}.

Section methods.
(** [self.array_of.encode] and [self.array_of.decode] *)
Variable array_of_encode : value -> result (list byte).
Variable array_of_decode : reader value.

(** [[self.array_of.encode(item) for item in items]] *)
Fixpoint encode_items (items : list value) : result (list (list byte)) :=
  match items with
  | [] => Ok []
  | item :: items' =>
      (e <- array_of_encode item ;;
       r <- encode_items items' ;;
       Ok (e :: r))%result
  end.

Definition encode (cls : Class) (items : value) : result (list byte) :=
  match items with
  | VNone => len_encoder cls (-1)
  | _ =>
      (n <- py_len items ;;
       p <- len_encoder cls n ;;
       xs <- py_items items ;;
       parts <- encode_items xs ;;
       Ok (List.concat (p :: parts)))%result
  end.

(** [[self.array_of.decode(data) for _ in range(length)]], [n] being
    the number of elements of [range(length)]. *)
Fixpoint decode_items (n : nat) : reader (list value) :=
  match n with
  | O => ret []
  | S n' =>
      (x <- array_of_decode ;;
       r <- decode_items n' ;;
       ret (x :: r))%reader
  end.

Definition decode (cls : Class) : reader value :=
  (length <- len_decoder cls ;;
   if length =? -1 then ret VNone
   else xs <- decode_items (Z.to_nat length) ;; ret (VList xs))%reader.
End methods.

End Array.

Module CompactArray.
Definition cls : Class := {|
  len_encoder := VarInt.len_encoder;
  len_decoder := VarInt.len_decoder
|}.
End CompactArray.

Module TaggedField.

(** The first parameter of both methods, named [cls] in the source, is
    the receiver; neither body uses it. *)
Definition decode : reader value :=
  (tag <- VarInt.read_unsigned_varint ;;
   size <- VarInt.len_decoder ;;
   if 0 <? size then
     val <- read (size - 1) ;;
     if Z.of_nat (List.length val) =? size - 1
     then ret (VTuple [VInt tag; VBytes val])
     else raise AssertionError
   else ret (VTuple [VInt tag; VNone]))%reader.

(** [tag, val = value] *)
Definition unpack_pair (v : value) : result (value * value) :=
  (xs <- py_items v ;;
   match xs with
   | [tag; val] => Ok (tag, val)
   | [] | [_] => Raise (ValueError "not enough values to unpack")
   | _ => Raise (ValueError "too many values to unpack")
   end)%result.

Definition encode (v : value) : result (list byte) :=
  (tv <- unpack_pair v ;;
   let '(tag, val) := tv in
   size <- match val with
           | VNone => Ok (-1)
           | _ => py_len val
           end ;;
   t <- match py_index tag with
        | Some n => VarInt.write_unsigned_varint n
        | None => Raise TypeError
        end ;;
   l <- VarInt.len_encoder size ;;
   match val with
   | VBytes b => Ok ((t ++ l) ++ b)
   | _ => Raise TypeError
   end)%result.

End TaggedField.

(** ** Dispatch: the [encode] and [decode] of any codec object *)

Fixpoint encode (t : AbstractType) (v : value) {struct t} : result (list byte) :=
  match t with
  | Int8 => Int8.encode v
  | Int16 => Int16.encode v
  | Int32 => Int32.encode v
  | Int64 => Int64.encode v
  | Boolean => Boolean.encode v
  | String encoding => String.encode String.cls encoding v
  | CompactString encoding => String.encode CompactString.cls encoding v
  | Bytes => Bytes.encode Bytes.cls v
  | CompactBytes => Bytes.encode CompactBytes.cls v
  | Schema fields => Schema.encode (fun field x => encode field x) fields v
  | Array array_of => Array.encode (fun item => encode array_of item) Array.cls v
  | CompactArray array_of =>
      Array.encode (fun item => encode array_of item) CompactArray.cls v
  | TaggedField => TaggedField.encode v
  end.

Definition int_value (m : reader Z) : reader value :=
  (n <- m ;; ret (VInt n))%reader.

Fixpoint decode (t : AbstractType) {struct t} : reader value :=
  match t with
  | Int8 => int_value Int8.decode
  | Int16 => int_value Int16.decode
  | Int32 => int_value Int32.decode
  | Int64 => int_value Int64.decode
  | Boolean => (b <- Boolean.decode ;; ret (VBool b))%reader
  | String encoding => String.decode String.cls encoding
  | CompactString encoding => String.decode CompactString.cls encoding
  | Bytes => Bytes.decode Bytes.cls
  | CompactBytes => Bytes.decode CompactBytes.cls
  | Schema fields => Schema.decode (fun field => decode field) fields
  | Array array_of => Array.decode (decode array_of) Array.cls
  | CompactArray array_of => Array.decode (decode array_of) CompactArray.cls
  | TaggedField => TaggedField.decode
  end.

(** ** Notation for examples *)

Definition bytes_of (l : list Z) : list byte := map byte.of_Z l.

Definition str (s : string) : text :=
  map (fun c => Z.of_N (Ascii.N_of_ascii c)) (list_ascii_of_string s).

(** ** The varint format, as the protocol describes it *)

(** A byte whose top bit announces another group. *)
Definition is_continuation (x : byte) : Prop := 128 <= byte.unsigned x.

(** The 7-bit groups of [data], least significant first, the first of them
    placed at bit [i]. *)
Fixpoint groups_value (i : Z) (data : list byte) : Z :=
  match data with
  | [] => 0
  | x :: data' =>
      Z.lor (Z.shiftl (Z.land (byte.unsigned x) 0x7f) i) (groups_value (i + 7) data')
  end.

(** Read a byte and enter the reader's loop with it: the state of
    [read_unsigned_varint] between two iterations. *)
Definition read_next (fuel : nat) (value i : Z) : reader Z :=
  (b <- VarInt.read_byte ;;
   VarInt.read_unsigned_varint_loop fuel value i b)%reader.

(** The round-trip law at one codec and one value: [encode] returns, and
    [decode] reads the value back from the bytes, whatever follows them. *)
Definition round_trips (t : AbstractType) (v : value) : Prop :=
  exists out,
    encode t v = Ok out /\
    forall rest, decode t (out ++ rest) = Ok (v, rest).

(** A text that an encoding takes to at most [n] bytes and back. *)
Definition transcodes (encoding : Encoding) (n : Z) (s : text) : Prop :=
  exists b,
    str_encode encoding s = Ok b /\
    bytes_decode encoding b = Ok s /\
    Z.of_nat (List.length b) <= n.

(** The sequence of pairs as Python has it: a list of 2-tuples. *)
Definition pairs_value (pairs : list (Z * text)) : value :=
  VList (map (fun p => VTuple [VInt (fst p); VStr (snd p)]) pairs).

(** ** The codecs' domains and sizes *)

(** The byte width of the fixed-width integer codecs. *)
Definition fixed_width (t : AbstractType) : option nat :=
  match t with
  | Int8 => Some 1%nat
  | Int16 => Some 2%nat
  | Int32 => Some 4%nat
  | Int64 => Some 8%nat
  | _ => None
  end.

(** The number of 7-bit groups a value of 32 bits needs. *)
Definition varint_size (v : Z) : nat :=
  if v <? 2 ^ 7 then 1
  else if v <? 2 ^ 14 then 2
  else if v <? 2 ^ 21 then 3
  else if v <? 2 ^ 28 then 4
  else 5.

(** The number of continuation bytes a buffer starts with. *)
Fixpoint continuation_run (data : list byte) : nat :=
  match data with
  | x :: data' => if 128 <=? byte.unsigned x then S (continuation_run data') else O
  | [] => O
  end.

(** The values a codec is meant for: integers of its width, text and blobs
    whose length fits the length prefix, tuples that follow a schema field
    by field, lists of elements of the element codec, and null where the
    length prefix can say so. *)
Inductive domain : AbstractType -> value -> Prop :=
| domain_Int8 (z : Z) : - 2 ^ 7 <= z < 2 ^ 7 -> domain Int8 (VInt z)
| domain_Int16 (z : Z) : - 2 ^ 15 <= z < 2 ^ 15 -> domain Int16 (VInt z)
| domain_Int32 (z : Z) : - 2 ^ 31 <= z < 2 ^ 31 -> domain Int32 (VInt z)
| domain_Int64 (z : Z) : - 2 ^ 63 <= z < 2 ^ 63 -> domain Int64 (VInt z)
| domain_Boolean (b : bool) : domain Boolean (VBool b)
| domain_String_null (encoding : Encoding) : domain (String encoding) VNone
| domain_String (encoding : Encoding) (s : text) :
    transcodes encoding (2 ^ 15 - 1) s -> domain (String encoding) (VStr s)
| domain_CompactString_null (encoding : Encoding) :
    domain (CompactString encoding) VNone
| domain_CompactString (encoding : Encoding) (s : text) :
    transcodes encoding (2 ^ 32 - 2) s -> domain (CompactString encoding) (VStr s)
| domain_Bytes_null : domain Bytes VNone
| domain_Bytes (b : list byte) :
    Z.of_nat (List.length b) < 2 ^ 31 -> domain Bytes (VBytes b)
| domain_CompactBytes_null : domain CompactBytes VNone
| domain_CompactBytes (b : list byte) :
    Z.of_nat (List.length b) < 2 ^ 32 - 1 -> domain CompactBytes (VBytes b)
| domain_Schema (fields : list (string * AbstractType)) (items : list value) :
    Forall2 (fun field x => domain (snd field) x) fields items ->
    domain (Schema fields) (VTuple items)
| domain_Array_null (array_of : AbstractType) : domain (Array array_of) VNone
| domain_Array (array_of : AbstractType) (items : list value) :
    Forall (domain array_of) items ->
    Z.of_nat (List.length items) < 2 ^ 31 ->
    domain (Array array_of) (VList items)
| domain_CompactArray_null (array_of : AbstractType) :
    domain (CompactArray array_of) VNone
| domain_CompactArray (array_of : AbstractType) (items : list value) :
    Forall (domain array_of) items ->
    Z.of_nat (List.length items) < 2 ^ 32 - 1 ->
    domain (CompactArray array_of) (VList items).

(** A reader that only moves the cursor forward: what it leaves is what it
    was given without a prefix, the bytes it took. *)
Definition advances {A : Type} (m : reader A) : Prop :=
  forall (data : Cursor) (a : A) (rest : Cursor),
    m data = Ok (a, rest) -> exists taken, data = taken ++ rest.

(** Induction on a codec object that reaches the fields of a [Schema]. *)
Section AbstractType_induction.
Variable P : AbstractType -> Prop.
Hypothesis P_Int8 : P Int8.
Hypothesis P_Int16 : P Int16.
Hypothesis P_Int32 : P Int32.
Hypothesis P_Int64 : P Int64.
Hypothesis P_Boolean : P Boolean.
Hypothesis P_String : forall encoding, P (String encoding).
Hypothesis P_CompactString : forall encoding, P (CompactString encoding).
Hypothesis P_Bytes : P Bytes.
Hypothesis P_CompactBytes : P CompactBytes.
Hypothesis P_Schema :
  forall fields, Forall (fun field => P (snd field)) fields -> P (Schema fields).
Hypothesis P_Array : forall array_of, P array_of -> P (Array array_of).
Hypothesis P_CompactArray : forall array_of, P array_of -> P (CompactArray array_of).
Hypothesis P_TaggedField : P TaggedField.

Fixpoint AbstractType_induction (t : AbstractType) : P t :=
  match t with
  | Int8 => P_Int8
  | Int16 => P_Int16
  | Int32 => P_Int32
  | Int64 => P_Int64
  | Boolean => P_Boolean
  | String encoding => P_String encoding
  | CompactString encoding => P_CompactString encoding
  | Bytes => P_Bytes
  | CompactBytes => P_CompactBytes
  | Schema fields =>
      P_Schema fields
        ((fix all (l : list (string * AbstractType))
            : Forall (fun field => P (snd field)) l :=
            match l with
            | [] => Forall_nil _
            | field :: l' =>
                Forall_cons field (AbstractType_induction (snd field)) (all l')
            end) fields)
  | Array array_of => P_Array array_of (AbstractType_induction array_of)
  | CompactArray array_of => P_CompactArray array_of (AbstractType_induction array_of)
  | TaggedField => P_TaggedField
  end.
End AbstractType_induction.

(** * Properties *)

(** ** Bytes and bits *)

Lemma unsigned_of_Z_small (z : Z) : 0 <= z < 256 -> byte.unsigned (byte.of_Z z) = z.
Proof.
  intros H. rewrite byte.unsigned_of_Z. unfold byte.wrap.
  apply Z.mod_small. lia.
Qed.

Lemma mask_high_bits (v : Z) :
  Z.land v 0xffffff80 = (v mod 2 ^ 32) / 128 * 128.
Proof.
  rewrite <- (Z.land_ones v 32) by lia.
  change 128 with (2 ^ 7).
  rewrite <- Z.shiftr_div_pow2, <- Z.shiftl_mul_pow2 by lia.
  change 0xffffff80 with (Z.shiftl (Z.ones 25) 7).
  Z.bitblast; rewrite Z.land_spec, Z.testbit_ones_nonneg by lia.
  - replace (l <? 32) with true by (symmetry; apply Z.ltb_lt; lia).
    destruct (Z.testbit v l); reflexivity.
  - replace (l <? 32) with false by (symmetry; apply Z.ltb_ge; lia).
    destruct (Z.testbit v l); reflexivity.
Qed.

(** The test of the writer's loop looks at the low 32 bits only. *)
Lemma loop_condition (v : Z) :
  negb (Z.land v 0xffffff80 =? 0) = (128 <=? v mod 2 ^ 32).
Proof.
  rewrite mask_high_bits.
  pose proof (Z.mod_pos_bound v (2 ^ 32) ltac:(lia)) as Hm.
  destruct (Z.leb_spec 128 (v mod 2 ^ 32)) as [Hge | Hlt].
  - apply negb_true_iff, Z.eqb_neq.
    assert (1 <= v mod 2 ^ 32 / 128) by (apply Z.div_le_lower_bound; lia). lia.
  - apply negb_false_iff, Z.eqb_eq.
    rewrite Z.div_small by lia. reflexivity.
Qed.

Lemma continuation_byte (v : Z) :
  Z.lor (Z.land v 0x7f) 0x80 = v mod 128 + 128.
Proof.
  pose proof (Z.add_lor_land (Z.land v 0x7f) 0x80) as Hadd.
  assert (Hdisj : Z.land (Z.land v 0x7f) 0x80 = 0).
  { rewrite <- Z.land_assoc. change (Z.land 0x7f 0x80) with 0. apply Z.land_0_r. }
  change 0x7f with (Z.ones 7) in *. rewrite Z.land_ones in * by lia.
  change (2 ^ 7) with 128 in *. lia.
Qed.

Lemma pack_continuation_byte (v : Z) :
  struct.pack_B (Z.lor (Z.land v 0x7f) 0x80) = Ok [byte.of_Z (v mod 128 + 128)].
Proof.
  rewrite continuation_byte. unfold struct.pack_B.
  pose proof (Z.mod_pos_bound v 128 ltac:(lia)) as Hm.
  replace ((0 <=? v mod 128 + 128) && (v mod 128 + 128 <=? 255)) with true.
  - reflexivity.
  - symmetry. apply andb_true_iff. split; apply Z.leb_le; lia.
Qed.

(** ** The writer's loop *)

(** One unfolding of the loop, with its test decided. *)
Lemma write_loop_continue (fuel : nat) (v : Z) (buffer : list byte) :
  128 <= v mod 2 ^ 32 ->
  VarInt.write_unsigned_varint_loop (S fuel) v buffer =
  VarInt.write_unsigned_varint_loop fuel (Z.shiftr v 7)
    (buffer ++ [byte.of_Z (v mod 128 + 128)]).
Proof.
  intros H. cbn [VarInt.write_unsigned_varint_loop].
  rewrite loop_condition.
  replace (128 <=? v mod 2 ^ 32) with true by (symmetry; apply Z.leb_le; lia).
  rewrite pack_continuation_byte. reflexivity.
Qed.

Lemma write_loop_starved (v : Z) (buffer : list byte) :
  128 <= v mod 2 ^ 32 ->
  VarInt.write_unsigned_varint_loop O v buffer = Diverge.
Proof.
  intros H. cbn [VarInt.write_unsigned_varint_loop].
  rewrite loop_condition.
  replace (128 <=? v mod 2 ^ 32) with true by (symmetry; apply Z.leb_le; lia).
  reflexivity.
Qed.

Lemma write_loop_exit (fuel : nat) (v : Z) (buffer : list byte) :
  v mod 2 ^ 32 < 128 ->
  VarInt.write_unsigned_varint_loop fuel v buffer =
  (w <- struct.pack_B v ;; Ok (buffer ++ w))%result.
Proof.
  intros H.
  destruct fuel; cbn [VarInt.write_unsigned_varint_loop];
    rewrite loop_condition;
    replace (128 <=? v mod 2 ^ 32) with false by (symmetry; apply Z.leb_gt; lia);
    reflexivity.
Qed.

(** More fuel does not change a run that ended. *)
Lemma write_loop_more_fuel (n : nat) :
  forall (m : nat) (v : Z) (buffer : list byte),
    (n <= m)%nat ->
    VarInt.write_unsigned_varint_loop n v buffer <> Diverge ->
    VarInt.write_unsigned_varint_loop m v buffer =
    VarInt.write_unsigned_varint_loop n v buffer.
Proof.
  induction n as [| n IH]; intros m v buffer Hle Hend.
  - destruct (Z.leb_spec 128 (v mod 2 ^ 32)) as [Hge | Hlt].
    + rewrite write_loop_starved in Hend by assumption. congruence.
    + rewrite !write_loop_exit by assumption. reflexivity.
  - destruct m as [| m]; [lia |].
    destruct (Z.leb_spec 128 (v mod 2 ^ 32)) as [Hge | Hlt].
    + rewrite (write_loop_continue n) in Hend by assumption.
      rewrite (write_loop_continue n), (write_loop_continue m) by assumption.
      apply IH; [lia | assumption].
    + rewrite !write_loop_exit by assumption. reflexivity.
Qed.

(** A non-negative value below [2^(7(n+1))] leaves the loop within [n]
    iterations. *)
Lemma write_loop_terminates (n : nat) :
  forall (v : Z) (buffer : list byte),
    0 <= v < 2 ^ (7 * (Z.of_nat n + 1)) ->
    VarInt.write_unsigned_varint_loop n v buffer <> Diverge.
Proof.
  induction n as [| n IH]; intros v buffer Hv.
  - change (2 ^ (7 * (Z.of_nat 0 + 1))) with 128 in Hv.
    rewrite write_loop_exit.
    + unfold struct.pack_B. destruct ((0 <=? v) && (v <=? 255)); discriminate.
    + pose proof (Z.mod_le v (2 ^ 32) ltac:(lia) ltac:(lia)). lia.
  - destruct (Z.leb_spec 128 (v mod 2 ^ 32)) as [Hge | Hlt].
    + rewrite write_loop_continue by assumption. apply IH.
      rewrite Z.shiftr_div_pow2 by lia. split.
      * apply Z.div_pos; lia.
      * apply Z.div_lt_upper_bound; [lia |].
        rewrite <- Z.pow_add_r by lia.
        replace (7 + 7 * (Z.of_nat n + 1)) with (7 * (Z.of_nat (S n) + 1)) by lia.
        lia.
    + rewrite write_loop_exit by assumption.
      unfold struct.pack_B. destruct ((0 <=? v) && (v <=? 255)); discriminate.
Qed.

Lemma write_fuel_enough (v : Z) :
  0 <= v -> v < 2 ^ (7 * (Z.of_nat (VarInt.write_fuel v) + 1)).
Proof.
  intros Hv. unfold VarInt.write_fuel.
  rewrite Z.abs_eq by lia.
  pose proof (Z.log2_nonneg v) as Hl.
  rewrite Nat2Z.inj_succ, Z2Nat.id by lia.
  destruct (Z.eq_dec v 0) as [-> | Hnz].
  - apply Z.pow_pos_nonneg; simpl; lia.
  - apply Z.log2_lt_pow2; lia.
Qed.

(** Any amount of fuel that ends the loop gives what
    [write_unsigned_varint] returns. *)
Lemma write_unsigned_varint_fuel (n : nat) (v : Z) :
  0 <= v ->
  VarInt.write_unsigned_varint_loop n v [] <> Diverge ->
  VarInt.write_unsigned_varint v = VarInt.write_unsigned_varint_loop n v [].
Proof.
  intros Hv Hn. unfold VarInt.write_unsigned_varint.
  pose proof (write_loop_terminates (VarInt.write_fuel v) v [] (conj Hv (write_fuel_enough v Hv))) as Hf.
  destruct (Nat.le_ge_cases n (VarInt.write_fuel v)) as [Hle | Hle].
  - apply write_loop_more_fuel; assumption.
  - symmetry. apply write_loop_more_fuel; assumption.
Qed.

(** ** The reader's loop *)

Lemma top_bit (x : byte) :
  negb (Z.land (byte.unsigned x) 0x80 =? 0) = (128 <=? byte.unsigned x).
Proof. destruct x; reflexivity. Qed.

Lemma low_bits (x : byte) :
  Z.land (byte.unsigned x) 0x7f = byte.unsigned x mod 128.
Proof. change 0x7f with (Z.ones 7). apply Z.land_ones. lia. Qed.

Lemma read_byte_eof : VarInt.read_byte [] = Ok (0, []).
Proof. reflexivity. Qed.

Lemma read_byte_cons (x : byte) (data : Cursor) :
  VarInt.read_byte (x :: data) = Ok (byte.unsigned x, data).
Proof. reflexivity. Qed.

Lemma read_loop_exit (fuel : nat) (value i b : Z) :
  Z.land b 0x80 = 0 ->
  VarInt.read_unsigned_varint_loop fuel value i b = ret (Z.lor value (Z.shiftl b i)).
Proof.
  intros Hb. destruct fuel; cbn [VarInt.read_unsigned_varint_loop];
    rewrite Hb; reflexivity.
Qed.

Lemma read_loop_step (fuel : nat) (value i b : Z) :
  Z.land b 0x80 <> 0 ->
  VarInt.read_unsigned_varint_loop (S fuel) value i b =
  if 28 <? i + 7 then raise (Exception (Z.lor value (Z.shiftl (Z.land b 0x7f) i)))
  else read_next fuel (Z.lor value (Z.shiftl (Z.land b 0x7f) i)) (i + 7).
Proof.
  intros Hb. cbn [VarInt.read_unsigned_varint_loop].
  apply Z.eqb_neq in Hb. rewrite Hb. reflexivity.
Qed.

Lemma top_bit_clear (x : byte) : byte.unsigned x < 128 -> Z.land (byte.unsigned x) 0x80 = 0.
Proof.
  intros Hx. pose proof (top_bit x) as Ht.
  replace (128 <=? byte.unsigned x) with false in Ht by (symmetry; apply Z.leb_gt; lia).
  apply negb_false_iff, Z.eqb_eq in Ht. exact Ht.
Qed.

Lemma top_bit_set (x : byte) : is_continuation x -> Z.land (byte.unsigned x) 0x80 <> 0.
Proof.
  unfold is_continuation. intros Hx. pose proof (top_bit x) as Ht.
  replace (128 <=? byte.unsigned x) with true in Ht by (symmetry; apply Z.leb_le; lia).
  apply negb_true_iff, Z.eqb_neq in Ht. exact Ht.
Qed.

Lemma read_next_eof (fuel : nat) (value i : Z) :
  read_next fuel value i [] = Ok (value, []).
Proof.
  unfold read_next, rbind. rewrite read_byte_eof.
  rewrite read_loop_exit by reflexivity.
  unfold ret. rewrite Z.shiftl_0_l, Z.lor_0_r. reflexivity.
Qed.

Lemma read_next_last (fuel : nat) (value i : Z) (x : byte) (data : Cursor) :
  byte.unsigned x < 128 ->
  read_next fuel value i (x :: data) = Ok (Z.lor value (Z.shiftl (byte.unsigned x) i), data).
Proof.
  intros Hx. unfold read_next, rbind. rewrite read_byte_cons.
  rewrite read_loop_exit by (apply top_bit_clear; assumption).
  reflexivity.
Qed.

Lemma read_next_continue (fuel : nat) (value i : Z) (x : byte) (data : Cursor) :
  is_continuation x ->
  i + 7 <= 28 ->
  read_next (S fuel) value i (x :: data) =
  read_next fuel (Z.lor value (Z.shiftl (byte.unsigned x mod 128) i)) (i + 7) data.
Proof.
  intros Hx Hi. unfold read_next at 1. unfold rbind. rewrite read_byte_cons.
  rewrite read_loop_step by (apply top_bit_set; assumption).
  replace (28 <? i + 7) with false by (symmetry; apply Z.ltb_ge; lia).
  rewrite low_bits. reflexivity.
Qed.

Lemma read_next_overflow (fuel : nat) (value i : Z) (x : byte) (data : Cursor) :
  is_continuation x ->
  28 < i + 7 ->
  read_next (S fuel) value i (x :: data) =
  Raise (Exception (Z.lor value (Z.shiftl (byte.unsigned x mod 128) i))).
Proof.
  intros Hx Hi. unfold read_next, rbind. rewrite read_byte_cons.
  rewrite read_loop_step by (apply top_bit_set; assumption).
  replace (28 <? i + 7) with true by (symmetry; apply Z.ltb_lt; lia).
  rewrite low_bits. reflexivity.
Qed.

Lemma groups_value_cons (i : Z) (x : byte) (data : list byte) :
  groups_value i (x :: data) =
  Z.lor (Z.shiftl (byte.unsigned x mod 128) i) (groups_value (i + 7) data).
Proof. cbn [groups_value]. rewrite low_bits. reflexivity. Qed.

Lemma groups_value_app (l : list byte) :
  forall (i : Z) (l' : list byte),
    groups_value i (l ++ l') =
    Z.lor (groups_value i l) (groups_value (i + 7 * Z.of_nat (List.length l)) l').
Proof.
  induction l as [| x l IH]; intros i l'.
  - cbn [app groups_value List.length]. rewrite Z.lor_0_l. f_equal. lia.
  - cbn [app]. rewrite !groups_value_cons, IH, Z.lor_assoc.
    do 2 f_equal. cbn [List.length]. lia.
Qed.

(** Reading through a run of continuation bytes that the guard lets pass. *)
Lemma read_next_continuations (conts : list byte) :
  forall (fuel : nat) (value i : Z) (data : Cursor),
    Forall is_continuation conts ->
    i + 7 * Z.of_nat (List.length conts) <= 28 ->
    read_next (List.length conts + fuel) value i (conts ++ data) =
    read_next fuel (Z.lor value (groups_value i conts))
      (i + 7 * Z.of_nat (List.length conts)) data.
Proof.
  induction conts as [| x conts IH]; intros fuel value i data Hc Hi.
  - cbn [app List.length Nat.add groups_value].
    rewrite Z.lor_0_r. f_equal. lia.
  - inversion Hc as [| ? ? Hx Hc']; subst.
    cbn [List.length] in Hi. rewrite Nat2Z.inj_succ in Hi.
    cbn [app List.length Nat.add].
    rewrite read_next_continue by (assumption || lia).
    rewrite IH by (assumption || lia).
    rewrite groups_value_cons, Z.lor_assoc. f_equal. lia.
Qed.

Lemma read_unsigned_varint_next : VarInt.read_unsigned_varint = read_next 5 0 0.
Proof. reflexivity. Qed.

(** At most four continuation bytes and a final byte: the value is that of
    the groups, and the cursor is left behind the final byte. *)
Lemma read_groups (conts : list byte) (last : byte) (rest : Cursor) :
  Forall is_continuation conts ->
  (List.length conts <= 4)%nat ->
  byte.unsigned last < 128 ->
  VarInt.read_unsigned_varint (conts ++ last :: rest) =
  Ok (groups_value 0 (conts ++ [last]), rest).
Proof.
  intros Hc Hlen Hlast. rewrite read_unsigned_varint_next.
  replace 5%nat with (List.length conts + (5 - List.length conts))%nat by lia.
  rewrite read_next_continuations by (assumption || lia).
  rewrite read_next_last by assumption.
  rewrite groups_value_app, groups_value_cons. cbn [groups_value].
  rewrite Z.lor_0_l, Z.lor_0_r, Z.mod_small by (pose proof (byte.unsigned_range last); lia).
  reflexivity.
Qed.

(** The fifth continuation byte raises, whatever follows it. *)
Lemma read_overflow (conts : list byte) (rest : Cursor) :
  Forall is_continuation conts ->
  List.length conts = 5%nat ->
  VarInt.read_unsigned_varint (conts ++ rest) = Raise (Exception (groups_value 0 conts)).
Proof.
  intros Hc Hlen.
  destruct conts as [| c1 [| c2 [| c3 [| c4 [| c5 [| ? ?]]]]]]; try discriminate.
  change (([c1; c2; c3; c4; c5]) ++ rest) with ([c1; c2; c3; c4] ++ c5 :: rest).
  change [c1; c2; c3; c4; c5] with ([c1; c2; c3; c4] ++ [c5]).
  assert (Hc4 : Forall is_continuation [c1; c2; c3; c4]).
  { repeat match goal with H : Forall _ (_ :: _) |- _ => inversion H; clear H; subst end.
    repeat constructor; assumption. }
  assert (Hc5 : is_continuation c5).
  { repeat match goal with H : Forall _ (_ :: _) |- _ => inversion H; clear H; subst end.
    assumption. }
  assert (Hl4 : List.length [c1; c2; c3; c4] = 4%nat) by reflexivity.
  generalize dependent [c1; c2; c3; c4]. intros front Hfront Hl4.
  rewrite read_unsigned_varint_next.
  replace 5%nat with (List.length front + 1)%nat by lia.
  rewrite read_next_continuations by (assumption || lia).
  rewrite read_next_overflow by (assumption || lia).
  rewrite groups_value_app, groups_value_cons. cbn [groups_value].
  rewrite Z.lor_0_l, Z.lor_0_r. reflexivity.
Qed.

(** The buffer ends after at most four continuation bytes. *)
Lemma read_truncated (conts : list byte) :
  Forall is_continuation conts ->
  (List.length conts <= 4)%nat ->
  VarInt.read_unsigned_varint conts = Ok (groups_value 0 conts, []).
Proof.
  intros Hc Hlen. rewrite read_unsigned_varint_next.
  rewrite <- (app_nil_r conts) at 1.
  replace 5%nat with (List.length conts + (5 - List.length conts))%nat by lia.
  rewrite read_next_continuations by (assumption || lia).
  rewrite read_next_eof, Z.lor_0_l. reflexivity.
Qed.

(** ** Writing then reading *)

Lemma split_low_group (v i : Z) :
  0 <= i ->
  Z.lor (Z.shiftl (v mod 128) i) (Z.shiftl (Z.shiftr v 7) (i + 7)) = Z.shiftl v i.
Proof.
  intros Hi. change 128 with (2 ^ 7). rewrite <- Z.land_ones by lia.
  apply Z.bits_inj'. intros k Hk.
  rewrite Z.lor_spec, !Z.shiftl_spec, Z.land_spec by lia.
  destruct (Z.ltb_spec k i) as [Hlt | Hge].
  - rewrite !(Z.testbit_neg_r _ (k - i)), (Z.testbit_neg_r _ (k - (i + 7))) by lia.
    reflexivity.
  - destruct (Z.ltb_spec (k - i) 7) as [Hlow | Hhigh].
    + rewrite Z.ones_spec_low by lia.
      rewrite (Z.testbit_neg_r _ (k - (i + 7))) by lia.
      rewrite andb_true_r, orb_false_r. reflexivity.
    + rewrite Z.ones_spec_high, Z.shiftr_spec by lia.
      rewrite andb_false_r, orb_false_l. f_equal. lia.
Qed.

(** What the writer emits for a value of 32 bits, the reader gives back,
    from any state of its accumulator that leaves room for the groups. *)
Lemma write_then_read (n : nat) :
  forall (v : Z) (buffer : list byte) (fuel : nat) (value i : Z) (rest : Cursor),
    0 <= v < 2 ^ 32 ->
    v < 2 ^ (7 * (Z.of_nat n + 1)) ->
    0 <= i -> i + 7 * Z.of_nat n <= 28 ->
    (n <= fuel)%nat ->
    exists out,
      VarInt.write_unsigned_varint_loop n v buffer = Ok (buffer ++ out) /\
      (1 <= List.length out <= S n)%nat /\
      read_next fuel value i (out ++ rest) = Ok (Z.lor value (Z.shiftl v i), rest).
Proof.
  assert (Hexit : forall (n : nat) (v : Z) (buffer : list byte) (fuel : nat)
                         (value i : Z) (rest : Cursor),
             0 <= v < 128 ->
             exists out,
               VarInt.write_unsigned_varint_loop n v buffer = Ok (buffer ++ out) /\
               (1 <= List.length out <= S n)%nat /\
               read_next fuel value i (out ++ rest) = Ok (Z.lor value (Z.shiftl v i), rest)).
  { intros k v buffer fuel value i rest Hv.
    exists [byte.of_Z v]. split; [| split].
    - rewrite write_loop_exit by (rewrite Z.mod_small; lia).
      unfold struct.pack_B.
      replace ((0 <=? v) && (v <=? 255)) with true; [reflexivity |].
      symmetry. apply andb_true_iff. split; apply Z.leb_le; lia.
    - cbn [List.length]. lia.
    - cbn [app]. rewrite read_next_last; rewrite unsigned_of_Z_small by lia.
      + reflexivity.
      + lia. }
  induction n as [| n IH]; intros v buffer fuel value i rest Hv Hn Hi Hroom Hfuel.
  - apply Hexit. change (2 ^ (7 * (Z.of_nat 0 + 1))) with 128 in Hn. lia.
  - destruct (Z.ltb_spec v 128) as [Hsmall | Hbig]; [apply Hexit; lia |].
    destruct fuel as [| fuel]; [lia |].
    assert (Hshift : 0 <= Z.shiftr v 7 < 2 ^ 32 /\
                     Z.shiftr v 7 < 2 ^ (7 * (Z.of_nat n + 1))).
    { rewrite Z.shiftr_div_pow2 by lia. change (2 ^ 7) with 128.
      repeat split.
      - apply Z.div_pos; lia.
      - apply Z.div_lt_upper_bound; lia.
      - apply Z.div_lt_upper_bound; [lia |].
        change 128 with (2 ^ 7). rewrite <- Z.pow_add_r by lia.
        replace (7 + 7 * (Z.of_nat n + 1)) with (7 * (Z.of_nat (S n) + 1)) by lia.
        assumption. }
    destruct Hshift as [Hs32 Hsn].
    pose proof (Z.mod_pos_bound v 128 ltac:(lia)) as Hm.
    destruct (IH (Z.shiftr v 7) (buffer ++ [byte.of_Z (v mod 128 + 128)]) fuel
                 (Z.lor value (Z.shiftl (v mod 128) i)) (i + 7) rest)
      as (out & Hw & Hlen & Hr); try lia.
    exists (byte.of_Z (v mod 128 + 128) :: out). split; [| split].
    + rewrite write_loop_continue by (rewrite Z.mod_small; lia).
      rewrite Hw, <- app_assoc. reflexivity.
    + cbn [List.length]. lia.
    + cbn [app]. rewrite read_next_continue.
      * rewrite unsigned_of_Z_small by lia.
        replace ((v mod 128 + 128) mod 128) with (v mod 128).
        -- rewrite Hr, <- Z.lor_assoc, split_low_group by lia. reflexivity.
        -- rewrite <- (Z.mod_mod v 128) at 1 by lia.
           rewrite <- (Z_mod_plus_full (v mod 128) 1 128). f_equal.
      * unfold is_continuation. rewrite unsigned_of_Z_small by lia. lia.
      * lia.
Qed.

(** The round trip of the unsigned varint, for every value of 32 bits. *)
Lemma unsigned_varint_round_trip (v : Z) :
  0 <= v < 2 ^ 32 ->
  exists out,
    VarInt.write_unsigned_varint v = Ok out /\
    (1 <= List.length out <= 5)%nat /\
    forall rest, VarInt.read_unsigned_varint (out ++ rest) = Ok (v, rest).
Proof.
  intros Hv.
  destruct (write_then_read 4 v [] 5 0 0 [] Hv) as (out & Hw & Hlen & _);
    try (cbn; lia).
  exists out. split; [| split].
  - rewrite (write_unsigned_varint_fuel 4) by (lia || (rewrite Hw; discriminate)).
    exact Hw.
  - exact Hlen.
  - intros rest.
    destruct (write_then_read 4 v [] 5 0 0 rest Hv) as (out' & Hw' & _ & Hr);
      try (cbn; lia).
    rewrite Hw in Hw'. injection Hw' as <-.
    rewrite read_unsigned_varint_next, Hr, Z.shiftl_0_r, Z.lor_0_l. reflexivity.
Qed.

(** A negative value above [-2^32 + 128] keeps the test of the loop true
    for ever: its low 32 bits stay at 128 or more under the arithmetic
    shift. *)
Lemma write_loop_diverges (n : nat) :
  forall (v : Z) (buffer : list byte),
    - 2 ^ 32 + 128 <= v < 0 ->
    VarInt.write_unsigned_varint_loop n v buffer = Diverge.
Proof.
  assert (Hcond : forall v, - 2 ^ 32 + 128 <= v < 0 -> 128 <= v mod 2 ^ 32).
  { intros v Hv. rewrite <- (Z_mod_plus_full v 1 (2 ^ 32)).
    rewrite Z.mod_small; lia. }
  induction n as [| n IH]; intros v buffer Hv.
  - apply write_loop_starved, Hcond, Hv.
  - rewrite write_loop_continue by (apply Hcond, Hv).
    apply IH. rewrite Z.shiftr_div_pow2 by lia. change (2 ^ 7) with 128. split.
    + transitivity (- 2 ^ 25); [lia |]. apply Z.div_le_lower_bound; lia.
    + apply Z.div_lt_upper_bound; lia.
Qed.

(** ** The fuel of the two loops *)

(** [Diverge] stands for a loop that runs for ever.  Once the fuel of
    [write_unsigned_varint] is spent the value is 0 or -1, so a loop that
    has not ended is at -1 and stays there: no amount of fuel ends it. *)
Lemma write_loop_diverges_for_ever (n : nat) :
  forall (v : Z) (buffer : list byte),
    - 2 ^ (7 * Z.of_nat n) <= v < 2 ^ (7 * Z.of_nat n) ->
    VarInt.write_unsigned_varint_loop n v buffer = Diverge ->
    forall (m : nat) (buffer' : list byte),
      VarInt.write_unsigned_varint_loop m v buffer' = Diverge.
Proof.
  induction n as [| n IH]; intros v buffer Hv Hd m buffer'.
  - change (2 ^ (7 * Z.of_nat 0)) with 1 in Hv.
    assert (Hcases : v = -1 \/ v = 0) by lia.
    destruct Hcases as [-> | ->].
    + apply write_loop_diverges. lia.
    + discriminate Hd.
  - destruct (Z.leb_spec 128 (v mod 2 ^ 32)) as [Hge | Hlt].
    + rewrite write_loop_continue in Hd by assumption.
      assert (Hs : - 2 ^ (7 * Z.of_nat n) <= Z.shiftr v 7 < 2 ^ (7 * Z.of_nat n)).
      { rewrite Z.shiftr_div_pow2 by lia.
        replace (7 * Z.of_nat (S n)) with (7 + 7 * Z.of_nat n) in Hv by lia.
        rewrite Z.pow_add_r in Hv by lia.
        pose proof (Z.pow_pos_nonneg 2 (7 * Z.of_nat n) ltac:(lia) ltac:(lia)).
        split.
        - apply Z.div_le_lower_bound; lia.
        - apply Z.div_lt_upper_bound; lia. }
      destruct m as [| m].
      * apply write_loop_starved. assumption.
      * rewrite write_loop_continue by assumption.
        apply (IH _ _ Hs Hd).
    + rewrite write_loop_exit in Hd by assumption.
      unfold struct.pack_B in Hd.
      destruct ((0 <=? v) && (v <=? 255)); discriminate Hd.
Qed.

Lemma write_fuel_bounds (v : Z) :
  - 2 ^ (7 * Z.of_nat (VarInt.write_fuel v)) <= v < 2 ^ (7 * Z.of_nat (VarInt.write_fuel v)).
Proof.
  unfold VarInt.write_fuel.
  pose proof (Z.log2_nonneg (Z.abs v)) as Hl.
  rewrite Nat2Z.inj_succ, Z2Nat.id by lia.
  assert (Habs : Z.abs v < 2 ^ (7 * Z.succ (Z.log2 (Z.abs v)))).
  { destruct (Z.eq_dec (Z.abs v) 0) as [-> | Hnz].
    - apply Z.pow_pos_nonneg; cbn; lia.
    - apply Z.log2_lt_pow2; lia. }
  lia.
Qed.

(** When [write_unsigned_varint] is [Diverge], the loop of the source does
    not end, and when it is not, every run that ends gives its result. *)
Lemma write_unsigned_varint_adequate (v : Z) :
  (VarInt.write_unsigned_varint v = Diverge ->
   forall n buffer, VarInt.write_unsigned_varint_loop n v buffer = Diverge) /\
  (forall n,
      VarInt.write_unsigned_varint_loop n v [] <> Diverge ->
      VarInt.write_unsigned_varint_loop n v [] = VarInt.write_unsigned_varint v).
Proof.
  split.
  - intros Hd n buffer.
    exact (write_loop_diverges_for_ever _ v [] (write_fuel_bounds v) Hd n buffer).
  - intros n Hn. unfold VarInt.write_unsigned_varint.
    destruct (Nat.le_ge_cases n (VarInt.write_fuel v)) as [Hle | Hle].
    + symmetry. apply write_loop_more_fuel; assumption.
    + apply write_loop_more_fuel; [assumption |].
      intros Hd. apply Hn.
      exact (write_loop_diverges_for_ever _ v [] (write_fuel_bounds v) Hd n []).
Qed.

(** The reader's loop never needs more than the five iterations
    [read_unsigned_varint] gives it: the guard [i > 28] ends it. *)
Lemma read_next_ends (fuel : nat) :
  forall (value i : Z) (data : Cursor),
    i <= 28 -> 28 < i + 7 * Z.of_nat fuel ->
    read_next fuel value i data <> Diverge.
Proof.
  induction fuel as [| fuel IH]; intros value i data Hi Hfuel; [lia |].
  unfold read_next, rbind.
  destruct (VarInt.read_byte data) as [[b data'] | e |] eqn:Hb.
  - destruct (Z.eq_dec (Z.land b 0x80) 0) as [Hz | Hnz].
    + rewrite read_loop_exit by assumption. discriminate.
    + rewrite read_loop_step by assumption.
      destruct (Z.ltb_spec 28 (i + 7)) as [Hover | Hroom]; [discriminate |].
      apply IH; lia.
  - destruct data; discriminate Hb.
  - destruct data; discriminate Hb.
Qed.

Lemma read_unsigned_varint_ends (data : Cursor) :
  VarInt.read_unsigned_varint data <> Diverge.
Proof. rewrite read_unsigned_varint_next. apply read_next_ends; lia. Qed.

(** ** Zigzag *)

Lemma zigzag_unsigned (v : Z) :
  - 2 ^ 31 <= v < 2 ^ 31 ->
  Z.lxor (Z.shiftl v 1) (Z.shiftr v 31) = if v <? 0 then - 2 * v - 1 else 2 * v.
Proof.
  intros Hv. rewrite Z.shiftl_mul_pow2, Z.shiftr_div_pow2 by lia.
  change (2 ^ 1) with 2.
  destruct (Z.ltb_spec v 0) as [Hneg | Hpos].
  - replace (v / 2 ^ 31) with (-1).
    + rewrite Z.lxor_m1_r, Z.lnot_eq_pred_opp. lia.
    + apply (Z.div_unique v (2 ^ 31) (-1) (v + 2 ^ 31)); lia.
  - rewrite Z.div_small, Z.lxor_0_r by lia. lia.
Qed.

Lemma low_bit (u : Z) : Z.land u 1 = u mod 2.
Proof. change (Z.land u (Z.ones 1) = u mod 2 ^ 1). apply Z.land_ones. lia. Qed.

Lemma zigzag_inverse (v : Z) :
  let u := if v <? 0 then - 2 * v - 1 else 2 * v in
  Z.lxor (Z.shiftr u 1) (- Z.land u 1) = v.
Proof.
  cbv zeta. rewrite Z.shiftr_div_pow2, low_bit by lia.
  change (2 ^ 1) with 2.
  destruct (Z.ltb_spec v 0) as [Hneg | Hpos].
  - replace ((- 2 * v - 1) / 2) with (- v - 1)
      by (apply (Z.div_unique (- 2 * v - 1) 2 (- v - 1) 1); lia).
    replace ((- 2 * v - 1) mod 2) with 1
      by (apply (Z.mod_unique (- 2 * v - 1) 2 (- v - 1) 1); lia).
    rewrite Z.lxor_m1_r, Z.lnot_eq_pred_opp. lia.
  - replace (2 * v / 2) with v
      by (apply (Z.div_unique (2 * v) 2 v 0); lia).
    replace ((2 * v) mod 2) with 0
      by (apply (Z.mod_unique (2 * v) 2 v 0); lia).
    apply Z.lxor_0_r.
Qed.

Lemma zigzag_range (v : Z) :
  - 2 ^ 31 <= v < 2 ^ 31 ->
  0 <= Z.lxor (Z.shiftl v 1) (Z.shiftr v 31) < 2 ^ 32.
Proof.
  intros Hv. rewrite zigzag_unsigned by assumption.
  destruct (Z.ltb_spec v 0); lia.
Qed.

Lemma read_varint_of_unsigned (u : Z) (data rest : Cursor) :
  VarInt.read_unsigned_varint data = Ok (u, rest) ->
  VarInt.read_varint data = Ok (Z.lxor (Z.shiftr u 1) (- Z.land u 1), rest).
Proof. intros H. unfold VarInt.read_varint, rbind. rewrite H. reflexivity. Qed.

Lemma signed_varint_round_trip (v : Z) :
  - 2 ^ 31 <= v < 2 ^ 31 ->
  exists out,
    VarInt.write_varint v = Ok out /\
    forall rest, VarInt.read_varint (out ++ rest) = Ok (v, rest).
Proof.
  intros Hv.
  destruct (unsigned_varint_round_trip _ (zigzag_range v Hv)) as (out & Hw & _ & Hr).
  exists out. split; [exact Hw |].
  intros rest. rewrite (read_varint_of_unsigned _ _ _ (Hr rest)).
  rewrite zigzag_unsigned by assumption.
  rewrite zigzag_inverse. reflexivity.
Qed.

Lemma Forall_prefix {A : Type} (P : A -> Prop) (n : nat) :
  forall l : list A, Forall P l -> Forall P (firstn n l).
Proof.
  induction n as [| n IH]; intros l Hl; [constructor |].
  destruct Hl as [| x l Hx Hl]; cbn [firstn]; constructor; auto.
Qed.

(** ** The claims on VarInt *)

(** C5. [read_unsigned_varint] accepts every encoding of at most five
    groups (at most four continuation bytes and a final byte) and returns
    the value of its groups, the five-byte encoding of [2^31 - 1] among
    them; the fifth continuation byte raises the overflow exception,
    whatever follows. *)
Theorem read_unsigned_varint_five_groups :
  (forall (conts : list byte) (last : byte) (rest : Cursor),
      Forall is_continuation conts ->
      (List.length conts <= 4)%nat ->
      byte.unsigned last < 128 ->
      VarInt.read_unsigned_varint (conts ++ last :: rest) =
      Ok (groups_value 0 (conts ++ [last]), rest)) /\
  (forall (conts : list byte) (rest : Cursor),
      Forall is_continuation conts ->
      List.length conts = 5%nat ->
      VarInt.read_unsigned_varint (conts ++ rest) =
      Raise (Exception (groups_value 0 conts))) /\
  VarInt.write_unsigned_varint (2 ^ 31 - 1) = Ok (bytes_of [0xff; 0xff; 0xff; 0xff; 0x07]) /\
  VarInt.read_unsigned_varint (bytes_of [0xff; 0xff; 0xff; 0xff; 0x07]) = Ok (2 ^ 31 - 1, []).
Proof.
  split; [| split; [| split]].
  - exact read_groups.
  - exact read_overflow.
  - vm_compute. reflexivity.
  - vm_compute. reflexivity.
Qed.

Lemma read_unsigned_varint_five_groups_witness :
  Forall is_continuation (bytes_of [0x80; 0xff]) /\
  (List.length (bytes_of [0x80; 0xff]%Z) <= 4)%nat /\
  byte.unsigned (byte.of_Z 0x03) < 128 /\
  VarInt.read_unsigned_varint (bytes_of [0x80; 0xff] ++ byte.of_Z 0x03 :: bytes_of [0x2a]) =
  Ok (groups_value 0 (bytes_of [0x80; 0xff] ++ [byte.of_Z 0x03]), bytes_of [0x2a]).
Proof.
  assert (Hc : Forall is_continuation (bytes_of [0x80; 0xff])).
  { repeat constructor; unfold is_continuation; vm_compute; discriminate. }
  assert (Hl : (List.length (bytes_of [0x80; 0xff]%Z) <= 4)%nat) by (vm_compute; lia).
  assert (Hb : byte.unsigned (byte.of_Z 0x03) < 128) by (vm_compute; reflexivity).
  split; [exact Hc | split; [exact Hl | split; [exact Hb |]]].
  apply (proj1 read_unsigned_varint_five_groups _ _ _ Hc Hl Hb).
Defined.

(** C7. At the end of the buffer the missing byte counts as a zero byte:
    reading a buffer that ends on continuation bytes gives what reading it
    with a zero byte appended gives, which for at most four of them is the
    value accumulated so far; the empty buffer reads as 0. *)
Theorem read_unsigned_varint_end_of_buffer :
  VarInt.read_unsigned_varint [] = Ok (0, []) /\
  forall data : Cursor,
    Forall is_continuation data ->
    VarInt.read_unsigned_varint data = VarInt.read_unsigned_varint (data ++ [Byte.x00]) /\
    ((List.length data <= 4)%nat ->
     VarInt.read_unsigned_varint data = Ok (groups_value 0 data, [])).
Proof.
  split; [reflexivity |].
  intros data Hc. split.
  - destruct (Nat.le_gt_cases (List.length data) 4) as [Hle | Hgt].
    + rewrite read_truncated by assumption.
      rewrite read_groups by (assumption || (vm_compute; reflexivity)).
      rewrite groups_value_app. cbn [groups_value].
      change (byte.unsigned Byte.x00) with 0.
      rewrite Z.land_0_l, Z.shiftl_0_l, !Z.lor_0_r. reflexivity.
    + rewrite <- (firstn_skipn 5 data).
      assert (Hf : Forall is_continuation (firstn 5 data))
        by (apply Forall_prefix; assumption).
      assert (Hl : List.length (firstn 5 data) = 5%nat)
        by (rewrite length_firstn; lia).
      rewrite <- app_assoc.
      rewrite !read_overflow by assumption. reflexivity.
  - apply read_truncated. assumption.
Qed.

Lemma read_unsigned_varint_end_of_buffer_witness :
  Forall is_continuation (bytes_of [0x81; 0x82]) /\
  VarInt.read_unsigned_varint (bytes_of [0x81; 0x82]) = Ok (257, []).
Proof.
  assert (Hc : Forall is_continuation (bytes_of [0x81; 0x82])).
  { repeat constructor; unfold is_continuation; vm_compute; discriminate. }
  split; [exact Hc |].
  apply (proj2 (proj2 read_unsigned_varint_end_of_buffer _ Hc)).
  vm_compute. lia.
Defined.

(** C6. The signed varint is the unsigned varint of the zigzag image:
    [write_varint] writes [(v << 1) ^ (v >> 31)], [read_varint] returns
    [(u >> 1) ^ -(u & 1)] of the unsigned [u] it reads, and reading what was
    written for a signed 32-bit [v] gives [v] back; -1 is written as
    unsigned 1 and 1 as unsigned 2. *)
Theorem signed_varint_zigzag :
  (forall v : Z,
      VarInt.write_varint v =
      VarInt.write_unsigned_varint (Z.lxor (Z.shiftl v 1) (Z.shiftr v 31))) /\
  (forall (u : Z) (data rest : Cursor),
      VarInt.read_unsigned_varint data = Ok (u, rest) ->
      VarInt.read_varint data = Ok (Z.lxor (Z.shiftr u 1) (- Z.land u 1), rest)) /\
  (forall v : Z,
      - 2 ^ 31 <= v < 2 ^ 31 ->
      exists out,
        VarInt.write_varint v = Ok out /\
        forall rest, VarInt.read_varint (out ++ rest) = Ok (v, rest)) /\
  Z.lxor (Z.shiftl (-1) 1) (Z.shiftr (-1) 31) = 1 /\
  Z.lxor (Z.shiftl 1 1) (Z.shiftr 1 31) = 2 /\
  VarInt.write_varint (-1) = Ok (bytes_of [0x01]) /\
  VarInt.write_varint 1 = Ok (bytes_of [0x02]) /\
  VarInt.write_varint 0 = Ok (bytes_of [0x00]) /\
  VarInt.write_varint (- 2 ^ 31) = Ok (bytes_of [0xff; 0xff; 0xff; 0xff; 0x0f]) /\
  VarInt.write_varint (2 ^ 31 - 1) = Ok (bytes_of [0xfe; 0xff; 0xff; 0xff; 0x0f]) /\
  VarInt.read_varint (bytes_of [0x01]) = Ok (-1, []) /\
  VarInt.read_varint (bytes_of [0x02]) = Ok (1, []) /\
  VarInt.read_varint (bytes_of [0x00]) = Ok (0, []) /\
  VarInt.read_varint (bytes_of [0xff; 0xff; 0xff; 0xff; 0x0f]) = Ok (- 2 ^ 31, []) /\
  VarInt.read_varint (bytes_of [0xfe; 0xff; 0xff; 0xff; 0x0f]) = Ok (2 ^ 31 - 1, []).
Proof.
  split; [reflexivity |].
  split; [exact read_varint_of_unsigned |].
  split; [exact signed_varint_round_trip |].
  repeat split; vm_compute; reflexivity.
Qed.

Lemma signed_varint_zigzag_witness :
  - 2 ^ 31 <= -300 < 2 ^ 31 /\
  exists out,
    VarInt.write_varint (-300) = Ok out /\
    forall rest, VarInt.read_varint (out ++ rest) = Ok (-300, rest).
Proof.
  assert (H : - 2 ^ 31 <= -300 < 2 ^ 31) by lia.
  split; [exact H |].
  exact (proj1 (proj2 (proj2 signed_varint_zigzag)) (-300) H).
Defined.

(** C10, as the code has it.  [write_unsigned_varint] terminates for every
    non-negative input, and returns one to five bytes for every input below
    [2^32].  An iteration of its loop, entered when the test
    [(value & 0xffffff80) != 0] holds, writes one byte and goes on with the
    value shifted right by 7 bits, which for a non-negative value is a
    smaller non-negative value; when the test fails the loop ends with the
    last byte.  The shift decreases any value with a bit set at position 7
    or above.  For the negative inputs from [-2^32 + 128] on, the negative
    32-bit values among them, the test of the loop never becomes false. *)
Theorem write_unsigned_varint_termination :
  (forall v : Z,
      0 <= v ->
      VarInt.write_unsigned_varint v <> Diverge /\
      exists n, forall buffer, VarInt.write_unsigned_varint_loop n v buffer <> Diverge) /\
  (forall v : Z,
      0 <= v < 2 ^ 32 ->
      exists out,
        VarInt.write_unsigned_varint v = Ok out /\ (1 <= List.length out <= 5)%nat) /\
  (forall v : Z, 128 <= v -> 0 <= Z.shiftr v 7 < v) /\
  (forall v : Z,
      - 2 ^ 32 + 128 <= v < 0 ->
      VarInt.write_unsigned_varint v = Diverge /\
      forall n buffer,
        negb (Z.land v 0xffffff80 =? 0) = true /\
        VarInt.write_unsigned_varint_loop n v buffer = Diverge) /\
  (forall (fuel : nat) (v : Z) (buffer : list byte),
      negb (Z.land v 0xffffff80 =? 0) = true ->
      VarInt.write_unsigned_varint_loop (S fuel) v buffer =
      VarInt.write_unsigned_varint_loop fuel (Z.shiftr v 7)
        (buffer ++ [byte.of_Z (Z.lor (Z.land v 0x7f) 0x80)]) /\
      (0 <= v -> 128 <= v /\ 0 <= Z.shiftr v 7 < v)) /\
  (forall (fuel : nat) (v : Z) (buffer : list byte),
      negb (Z.land v 0xffffff80 =? 0) = false ->
      VarInt.write_unsigned_varint_loop fuel v buffer =
      (w <- struct.pack_B v ;; Ok (buffer ++ w))%result) /\
  VarInt.write_unsigned_varint 300 = Ok (bytes_of [0xac; 0x02]).
Proof.
  assert (Hshift : forall v : Z, 128 <= v -> 0 <= Z.shiftr v 7 < v).
  { intros v Hv. rewrite Z.shiftr_div_pow2 by lia. change (2 ^ 7) with 128. split.
    - apply Z.div_pos; lia.
    - apply Z.div_lt_upper_bound; lia. }
  split; [| split; [| split; [exact Hshift | split; [| split; [| split]]]]].
  - intros v Hv. split.
    + apply write_loop_terminates. split; [assumption | apply write_fuel_enough; assumption].
    + exists (VarInt.write_fuel v). intros buffer.
      apply write_loop_terminates. split; [assumption | apply write_fuel_enough; assumption].
  - intros v Hv.
    destruct (unsigned_varint_round_trip v Hv) as (out & Hw & Hlen & _).
    exists out. split; assumption.
  - intros v Hv. split; [apply write_loop_diverges; assumption |].
    intros n buffer. split; [| apply write_loop_diverges; assumption].
    rewrite loop_condition. apply Z.leb_le.
    rewrite <- (Z_mod_plus_full v 1 (2 ^ 32)). rewrite Z.mod_small; lia.
  - intros fuel v buffer Htest.
    rewrite loop_condition in Htest. apply Z.leb_le in Htest.
    split.
    + rewrite write_loop_continue by exact Htest.
      rewrite continuation_byte. reflexivity.
    + intros Hv.
      assert (Hbig : 128 <= v).
      { pose proof (Z.mod_le v (2 ^ 32) Hv ltac:(lia)). lia. }
      split; [exact Hbig | apply Hshift; exact Hbig].
  - intros fuel v buffer Htest.
    rewrite loop_condition in Htest. apply Z.leb_gt in Htest.
    apply write_loop_exit. exact Htest.
  - vm_compute. reflexivity.
Qed.

Lemma write_unsigned_varint_termination_witness :
  (0 <= 300 < 2 ^ 32 /\
   exists out,
     VarInt.write_unsigned_varint 300 = Ok out /\ (1 <= List.length out <= 5)%nat) /\
  (negb (Z.land 300 0xffffff80 =? 0) = true /\
   VarInt.write_unsigned_varint_loop 1 300 [] =
   VarInt.write_unsigned_varint_loop 0 2 (bytes_of [0xac]) /\
   (0 <= 300 -> 128 <= 300 /\ 0 <= Z.shiftr 300 7 < 300)).
Proof.
  assert (H : 0 <= 300 < 2 ^ 32) by lia.
  assert (Ht : negb (Z.land 300 0xffffff80 =? 0) = true) by reflexivity.
  split.
  - split; [exact H |].
    exact (proj1 (proj2 write_unsigned_varint_termination) 300 H).
  - split; [exact Ht |].
    exact (proj1 (proj2 (proj2 (proj2 (proj2 write_unsigned_varint_termination))))
             O 300 [] Ht).
Defined.

(** C10 as stated fails at both ends.  The non-negative input [2^32] has
    its low 32 bits clear: the loop is skipped and [struct.pack(">B", ...)]
    raises, so no byte sequence is returned.  The negative input [-2^32]
    makes the test of the loop false at once. *)
Lemma write_unsigned_varint_4294967296 :
  VarInt.write_unsigned_varint 4294967296 = Raise struct_error /\
  negb (Z.land (-4294967296) 0xffffff80 =? 0) = false /\
  VarInt.write_unsigned_varint (-4294967296) = Raise struct_error.
Proof. repeat split; vm_compute; reflexivity. Qed.

(** ** Compact length prefixes *)

(** C4, as the code has it.  For every logical length [L] from -1 up to
    [2^32 - 2], [len_encoder] emits the unsigned varint of [L + 1] and
    [len_decoder] reads [L] back from it.  [CompactBytes] stores the empty
    blob as varint 1 and null as varint 0, and decodes them apart. *)
Theorem compact_length_bias :
  (forall L : Z,
      -1 <= L < 2 ^ 32 - 1 ->
      exists out,
        VarInt.len_encoder L = Ok out /\
        VarInt.write_unsigned_varint (L + 1) = Ok out /\
        forall rest, VarInt.len_decoder (out ++ rest) = Ok (L, rest)) /\
  encode CompactBytes (VBytes []) = VarInt.write_unsigned_varint 1 /\
  encode CompactBytes (VBytes []) = Ok (bytes_of [0x01]) /\
  decode CompactBytes (bytes_of [0x01]) = Ok (VBytes [], []) /\
  encode CompactBytes VNone = Ok (bytes_of [0x00]) /\
  decode CompactBytes (bytes_of [0x00]) = Ok (VNone, []).
Proof.
  split.
  - intros L HL.
    destruct (unsigned_varint_round_trip (L + 1) ltac:(lia)) as (out & Hw & _ & Hr).
    exists out. split; [exact Hw | split; [exact Hw |]].
    intros rest. unfold VarInt.len_decoder, rbind. rewrite Hr. unfold ret.
    do 2 f_equal. lia.
  - repeat split; vm_compute; reflexivity.
Qed.

Lemma compact_length_bias_witness :
  -1 <= 300 < 2 ^ 32 - 1 /\
  exists out,
    VarInt.len_encoder 300 = Ok out /\
    VarInt.write_unsigned_varint (300 + 1) = Ok out /\
    forall rest, VarInt.len_decoder (out ++ rest) = Ok (300, rest).
Proof.
  assert (H : -1 <= 300 < 2 ^ 32 - 1) by lia.
  split; [exact H |].
  exact (proj1 compact_length_bias 300 H).
Defined.

(** C4 as stated fails at the logical length [2^32 - 1]: the stored value
    [2^32] has its low 32 bits clear, the writer's loop is skipped and
    packing the value into one byte raises. *)
Lemma len_encoder_4294967295 :
  VarInt.len_encoder 4294967295 = Raise struct_error.
Proof. vm_compute. reflexivity. Qed.


(** ** Length-prefixed payloads *)

Lemma read_nonneg (n : Z) (data : Cursor) :
  0 <= n ->
  read n data = Ok (firstn (Z.to_nat n) data, skipn (Z.to_nat n) data).
Proof.
  intros Hn. unfold read.
  replace (n <? 0) with false by (symmetry; apply Z.ltb_ge; lia).
  reflexivity.
Qed.

Lemma length_read_short (n : Z) (data : Cursor) :
  Z.of_nat (List.length data) < n ->
  negb (Z.of_nat (List.length (firstn (Z.to_nat n) data)) =? n) = true.
Proof.
  intros H. apply negb_true_iff, Z.eqb_neq.
  rewrite length_firstn. lia.
Qed.

Lemma length_read_full (n : Z) (data : Cursor) :
  0 <= n <= Z.of_nat (List.length data) ->
  Z.of_nat (List.length (firstn (Z.to_nat n) data)) = n.
Proof. intros H. rewrite length_firstn. lia. Qed.

(** C8.  Once the length prefix has decoded to a non-negative [L]:
    with fewer than [L] bytes left, [Bytes.decode] and [String.decode] raise
    their buffer-underrun [ValueError] and return nothing; with [L] bytes
    or more left, [Bytes.decode] returns exactly the next [L] bytes and
    [String.decode] what the text encoding makes of them.  This holds for
    the class attributes of [Bytes] and [String] and for those of their
    compact subclasses. *)
Theorem decode_buffer_underrun :
  forall (cls : Class) (encoding : Encoding) (data rest : Cursor) (L : Z),
    len_decoder cls data = Ok (L, rest) ->
    0 <= L ->
    (Z.of_nat (List.length rest) < L ->
     Bytes.decode cls data = Raise (ValueError "Buffer underrun decoding Bytes") /\
     String.decode cls encoding data = Raise (ValueError "Buffer underrun decoding string")) /\
    (L <= Z.of_nat (List.length rest) ->
     Bytes.decode cls data =
     Ok (VBytes (firstn (Z.to_nat L) rest), skipn (Z.to_nat L) rest) /\
     String.decode cls encoding data =
     match bytes_decode encoding (firstn (Z.to_nat L) rest) with
     | Ok s => Ok (VStr s, skipn (Z.to_nat L) rest)
     | Raise e => Raise e
     | Diverge => Diverge
     end).
Proof.
  intros cls encoding data rest L Hlen HL.
  assert (Hsign : (L <? 0) = false) by (apply Z.ltb_ge; lia).
  split.
  - intros Hshort. split.
    + unfold Bytes.decode, rbind. rewrite Hlen, Hsign.
      rewrite read_nonneg by assumption.
      rewrite length_read_short by assumption. reflexivity.
    + unfold String.decode, rbind. rewrite Hlen, Hsign.
      rewrite read_nonneg by assumption.
      rewrite length_read_short by assumption. reflexivity.
  - intros Hfull. split.
    + unfold Bytes.decode, rbind. rewrite Hlen, Hsign.
      rewrite read_nonneg by assumption.
      rewrite length_read_full, Z.eqb_refl by lia. reflexivity.
    + unfold String.decode, rbind. rewrite Hlen, Hsign.
      rewrite read_nonneg by assumption.
      rewrite length_read_full, Z.eqb_refl by lia.
      cbn [negb]. unfold lift, ret.
      destruct (bytes_decode encoding (firstn (Z.to_nat L) rest)); reflexivity.
Qed.

Lemma decode_buffer_underrun_witness :
  len_decoder Bytes.cls (bytes_of [0; 0; 0; 3; 0x61; 0x62]) = Ok (3, bytes_of [0x61; 0x62]) /\
  Bytes.decode Bytes.cls (bytes_of [0; 0; 0; 3; 0x61; 0x62]) =
  Raise (ValueError "Buffer underrun decoding Bytes") /\
  len_decoder String.cls (bytes_of [0; 2; 0x61; 0x62; 0x63]) = Ok (2, bytes_of [0x61; 0x62; 0x63]) /\
  String.decode String.cls codecs.ascii (bytes_of [0; 2; 0x61; 0x62; 0x63]) =
  Ok (VStr (str "ab"), bytes_of [0x63]).
Proof.
  assert (H1 : len_decoder Bytes.cls (bytes_of [0; 0; 0; 3; 0x61; 0x62]) =
               Ok (3, bytes_of [0x61; 0x62])) by (vm_compute; reflexivity).
  assert (H2 : len_decoder String.cls (bytes_of [0; 2; 0x61; 0x62; 0x63]) =
               Ok (2, bytes_of [0x61; 0x62; 0x63])) by (vm_compute; reflexivity).
  split; [exact H1 | split; [| split; [exact H2 |]]].
  - apply (decode_buffer_underrun Bytes.cls codecs.ascii _ _ 3 H1); [lia |].
    vm_compute. reflexivity.
  - apply (proj2 (decode_buffer_underrun String.cls codecs.ascii _ _ 2 H2 ltac:(lia))).
    vm_compute. discriminate.
Defined.

(** C9.  When the [Int32] length prefix of a classic [Array] decodes to a
    value below -1, [Array.decode] returns the empty list and leaves the
    cursor behind the prefix: only -1 gives null, and [range] of a negative
    count has no element.  The prefix [ff ff ff fe] (-2) is such a one. *)
Theorem array_decode_negative_length :
  (forall (array_of : AbstractType) (data rest : Cursor) (L : Z),
      Int32.decode data = Ok (L, rest) ->
      L < -1 ->
      decode (Array array_of) data = Ok (VList [], rest)) /\
  (forall (array_of : AbstractType) (data rest : Cursor),
      Int32.decode data = Ok (-1, rest) ->
      decode (Array array_of) data = Ok (VNone, rest)) /\
  (forall rest : Cursor,
      Int32.decode (bytes_of [0xff; 0xff; 0xff; 0xfe] ++ rest) = Ok (-2, rest)) /\
  (forall (array_of : AbstractType) (rest : Cursor),
      decode (Array array_of) (bytes_of [0xff; 0xff; 0xff; 0xfe] ++ rest) =
      Ok (VList [], rest)).
Proof.
  assert (Hneg : forall (array_of : AbstractType) (data rest : Cursor) (L : Z),
             Int32.decode data = Ok (L, rest) -> L < -1 ->
             decode (Array array_of) data = Ok (VList [], rest)).
  { intros array_of data rest L Hlen HL.
    cbn [decode]. unfold Array.decode, rbind. cbn [len_decoder Array.cls].
    rewrite Hlen.
    replace (L =? -1) with false by (symmetry; apply Z.eqb_neq; lia).
    destruct L as [| p | p]; try lia. reflexivity. }
  assert (Hm2 : forall rest : Cursor,
             Int32.decode (bytes_of [0xff; 0xff; 0xff; 0xfe] ++ rest) = Ok (-2, rest))
    by (intros rest; reflexivity).
  split; [exact Hneg | split; [| split; [exact Hm2 |]]].
  - intros array_of data rest Hlen.
    cbn [decode]. unfold Array.decode, rbind. cbn [len_decoder Array.cls].
    rewrite Hlen. reflexivity.
  - intros array_of rest. apply (Hneg array_of _ rest (-2) (Hm2 rest)). lia.
Qed.

Lemma array_decode_negative_length_witness :
  Int32.decode (bytes_of [0xff; 0xff; 0xff; 0xfd; 0x07]) = Ok (-3, bytes_of [0x07]) /\
  -3 < -1 /\
  decode (Array Int8) (bytes_of [0xff; 0xff; 0xff; 0xfd; 0x07]) = Ok (VList [], bytes_of [0x07]).
Proof.
  assert (H : Int32.decode (bytes_of [0xff; 0xff; 0xff; 0xfd; 0x07]) = Ok (-3, bytes_of [0x07]))
    by (vm_compute; reflexivity).
  split; [exact H | split; [lia |]].
  apply (proj1 array_decode_negative_length Int8 _ _ (-3) H). lia.
Defined.


(** ** TaggedField *)

Lemma tagged_field_decode_steps (data d1 rest : Cursor) (tag L : Z) :
  VarInt.read_unsigned_varint data = Ok (tag, d1) ->
  VarInt.len_decoder d1 = Ok (L, rest) ->
  TaggedField.decode data =
  if 0 <? L then
    if Z.of_nat (List.length (firstn (Z.to_nat (L - 1)) rest)) =? L - 1
    then Ok (VTuple [VInt tag; VBytes (firstn (Z.to_nat (L - 1)) rest)],
             skipn (Z.to_nat (L - 1)) rest)
    else Raise AssertionError
  else Ok (VTuple [VInt tag; VNone], rest).
Proof.
  intros Htag Hlen. unfold TaggedField.decode, rbind. rewrite Htag, Hlen.
  destruct (Z.ltb_spec 0 L) as [Hpos | Hle]; [| reflexivity].
  rewrite read_nonneg by lia.
  destruct (Z.of_nat (List.length (firstn (Z.to_nat (L - 1)) rest)) =? L - 1); reflexivity.
Qed.

(** C1, what the code does instead.  [TaggedField.decode] takes the length
    [L] from [len_decoder], which has removed the bias already, and removes
    it a second time: for [L > 0] it reads [L - 1] bytes, and for [L = 0]
    it returns null where the empty value was encoded.  The field that
    [encode] writes for [(5, b"ab")] decodes to [(5, b"a")], and the one
    for [(5, b"")] to [(5, None)]. *)
Theorem tagged_field_decode_short :
  (forall (data d1 rest : Cursor) (tag L : Z),
      VarInt.read_unsigned_varint data = Ok (tag, d1) ->
      VarInt.len_decoder d1 = Ok (L, rest) ->
      0 < L <= Z.of_nat (List.length rest) ->
      TaggedField.decode data =
      Ok (VTuple [VInt tag; VBytes (firstn (Z.to_nat (L - 1)) rest)],
          skipn (Z.to_nat (L - 1)) rest)) /\
  (forall (data d1 rest : Cursor) (tag : Z),
      VarInt.read_unsigned_varint data = Ok (tag, d1) ->
      VarInt.len_decoder d1 = Ok (0, rest) ->
      TaggedField.decode data = Ok (VTuple [VInt tag; VNone], rest)) /\
  TaggedField.encode (VTuple [VInt 5; VBytes (bytes_of [0x61; 0x62])]) =
  Ok (bytes_of [0x05; 0x03; 0x61; 0x62]) /\
  VarInt.len_decoder (bytes_of [0x03; 0x61; 0x62]) = Ok (2, bytes_of [0x61; 0x62]) /\
  TaggedField.decode (bytes_of [0x05; 0x03; 0x61; 0x62]) =
  Ok (VTuple [VInt 5; VBytes (bytes_of [0x61])], bytes_of [0x62]) /\
  TaggedField.encode (VTuple [VInt 5; VBytes []]) = Ok (bytes_of [0x05; 0x01]) /\
  VarInt.len_decoder (bytes_of [0x01]) = Ok (0, []) /\
  TaggedField.decode (bytes_of [0x05; 0x01]) = Ok (VTuple [VInt 5; VNone], []).
Proof.
  split; [| split].
  - intros data d1 rest tag L Htag Hlen HL.
    rewrite (tagged_field_decode_steps _ _ _ _ _ Htag Hlen).
    replace (0 <? L) with true by (symmetry; apply Z.ltb_lt; lia).
    rewrite length_read_full, Z.eqb_refl by lia. reflexivity.
  - intros data d1 rest tag Htag Hlen.
    rewrite (tagged_field_decode_steps _ _ _ _ _ Htag Hlen). reflexivity.
  - repeat split; vm_compute; reflexivity.
Qed.

Lemma tagged_field_decode_short_witness :
  VarInt.read_unsigned_varint (bytes_of [0x07; 0x04; 0x61; 0x62; 0x63]) =
  Ok (7, bytes_of [0x04; 0x61; 0x62; 0x63]) /\
  VarInt.len_decoder (bytes_of [0x04; 0x61; 0x62; 0x63]) = Ok (3, bytes_of [0x61; 0x62; 0x63]) /\
  TaggedField.decode (bytes_of [0x07; 0x04; 0x61; 0x62; 0x63]) =
  Ok (VTuple [VInt 7; VBytes (bytes_of [0x61; 0x62])], bytes_of [0x63]).
Proof.
  assert (H1 : VarInt.read_unsigned_varint (bytes_of [0x07; 0x04; 0x61; 0x62; 0x63]) =
               Ok (7, bytes_of [0x04; 0x61; 0x62; 0x63])) by (vm_compute; reflexivity).
  assert (H2 : VarInt.len_decoder (bytes_of [0x04; 0x61; 0x62; 0x63]) =
               Ok (3, bytes_of [0x61; 0x62; 0x63])) by (vm_compute; reflexivity).
  split; [exact H1 | split; [exact H2 |]].
  apply (proj1 tagged_field_decode_short _ _ _ 7 3 H1 H2).
  vm_compute. split; [reflexivity | discriminate].
Defined.

(** C2, what the code does instead.  For a value that is [bytes],
    [TaggedField.encode] returns the varint of the tag, the biased length
    and the value.  For a null value it computes the size -1 and its prefix
    (the single byte 0) and then adds [None] to the bytes, which raises
    [TypeError]: the call does not return. *)
Theorem tagged_field_encode_null :
  (forall tag : Z,
      0 <= tag < 2 ^ 32 ->
      TaggedField.encode (VTuple [VInt tag; VNone]) = Raise TypeError) /\
  (forall (tag : Z) (val : list byte),
      0 <= tag < 2 ^ 32 ->
      Z.of_nat (List.length val) < 2 ^ 32 - 1 ->
      exists t l,
        VarInt.write_unsigned_varint tag = Ok t /\
        VarInt.len_encoder (Z.of_nat (List.length val)) = Ok l /\
        TaggedField.encode (VTuple [VInt tag; VBytes val]) = Ok ((t ++ l) ++ val)) /\
  VarInt.len_encoder (-1) = Ok (bytes_of [0x00]) /\
  TaggedField.encode (VTuple [VInt 5; VNone]) = Raise TypeError.
Proof.
  split; [| split].
  - intros tag Htag.
    destruct (unsigned_varint_round_trip tag Htag) as (t & Hw & _).
    unfold TaggedField.encode. cbn [TaggedField.unpack_pair py_items bind py_index].
    rewrite Hw. reflexivity.
  - intros tag val Htag Hval.
    destruct (unsigned_varint_round_trip tag Htag) as (t & Hw & _).
    destruct (unsigned_varint_round_trip (Z.of_nat (List.length val) + 1) ltac:(lia))
      as (l & Hl & _).
    exists t, l. split; [exact Hw | split; [exact Hl |]].
    unfold TaggedField.encode. cbn [TaggedField.unpack_pair py_items bind py_index py_len].
    rewrite Hw. cbn [bind]. unfold VarInt.len_encoder. rewrite Hl. reflexivity.
  - split; vm_compute; reflexivity.
Qed.

Lemma tagged_field_encode_null_witness :
  0 <= 300 < 2 ^ 32 /\
  TaggedField.encode (VTuple [VInt 300; VNone]) = Raise TypeError.
Proof.
  assert (H : 0 <= 300 < 2 ^ 32) by lia.
  split; [exact H |].
  exact (proj1 tagged_field_encode_null 300 H).
Defined.

(** ** Fixed-width integers *)

Lemma length_be_bytes (n : nat) (u : Z) : List.length (struct.be_bytes n u) = n.
Proof. induction n as [| n IH]; cbn [struct.be_bytes List.length]; congruence. Qed.

Lemma be_value_from (data : list byte) :
  forall acc : Z,
    fold_left (fun acc x => acc * 256 + byte.unsigned x) data acc =
    acc * 2 ^ (8 * Z.of_nat (List.length data)) + struct.be_value data.
Proof.
  unfold struct.be_value.
  induction data as [| x data IH]; intros acc.
  - cbn. lia.
  - cbn [fold_left List.length]. rewrite IH, (IH (0 * 256 + byte.unsigned x)).
    rewrite Nat2Z.inj_succ.
    replace (8 * Z.succ (Z.of_nat (List.length data)))
      with (8 + 8 * Z.of_nat (List.length data)) by lia.
    rewrite Z.pow_add_r by lia. change (2 ^ 8) with 256. ring.
Qed.

Lemma be_value_be_bytes (n : nat) (u : Z) :
  struct.be_value (struct.be_bytes n u) = u mod 2 ^ (8 * Z.of_nat n).
Proof.
  induction n as [| n IH].
  - cbn. rewrite Z.mod_1_r. reflexivity.
  - cbn [struct.be_bytes]. unfold struct.be_value. cbn [fold_left].
    rewrite be_value_from, length_be_bytes, IH.
    rewrite byte.unsigned_of_Z. unfold byte.wrap.
    rewrite Z.shiftr_div_pow2 by lia.
    rewrite Nat2Z.inj_succ.
    replace (8 * Z.succ (Z.of_nat n)) with (8 * Z.of_nat n + 8) by lia.
    rewrite Z.pow_add_r by lia.
    rewrite Z.rem_mul_r by lia. lia.
Qed.

Lemma firstn_exact {A : Type} (l l' : list A) : firstn (List.length l) (l ++ l') = l.
Proof. induction l as [| x l IH]; cbn; [reflexivity | rewrite IH; reflexivity]. Qed.

Lemma skipn_exact {A : Type} (l l' : list A) : skipn (List.length l) (l ++ l') = l'.
Proof. induction l as [| x l IH]; cbn; [reflexivity | exact IH]. Qed.

Lemma read_exact (n : Z) (out rest : Cursor) :
  Z.of_nat (List.length out) = n ->
  read n (out ++ rest) = Ok (out, rest).
Proof.
  intros Hn. rewrite read_nonneg by lia.
  replace (Z.to_nat n) with (List.length out) by lia.
  rewrite firstn_exact, skipn_exact. reflexivity.
Qed.

(** A signed integer of [n] bytes is packed to [n] bytes and unpacked
    again. *)
Lemma fixed_int_round_trip (n : nat) (z : Z) (rest : Cursor) :
  (0 < n)%nat ->
  - 2 ^ (8 * Z.of_nat n - 1) <= z < 2 ^ (8 * Z.of_nat n - 1) ->
  _pack (struct.pack_int n) (VInt z) = Ok (struct.be_bytes n z) /\
  (d <- read (Z.of_nat n) ;; lift (_unpack (struct.unpack_int n) d))%reader
    (struct.be_bytes n z ++ rest) = Ok (z, rest).
Proof.
  intros Hn Hz.
  set (half := 2 ^ (8 * Z.of_nat n - 1)) in *.
  assert (Hhalf : 2 ^ (8 * Z.of_nat n) = 2 * half).
  { unfold half. replace (8 * Z.of_nat n) with (1 + (8 * Z.of_nat n - 1)) at 1 by lia.
    rewrite Z.pow_add_r by lia. reflexivity. }
  assert (Hpos : 0 < half) by (apply Z.pow_pos_nonneg; lia).
  split.
  - unfold _pack, struct.pack_int. cbn [py_index]. fold half.
    replace ((- half <=? z) && (z <? half)) with true; [reflexivity |].
    symmetry. apply andb_true_iff. split; [apply Z.leb_le | apply Z.ltb_lt]; lia.
  - unfold rbind. rewrite read_exact by (rewrite length_be_bytes; reflexivity).
    unfold _unpack, struct.unpack_int. rewrite length_be_bytes, Nat.eqb_refl.
    rewrite be_value_be_bytes. fold half. rewrite Hhalf.
    cbn [except_struct_error lift]. do 2 f_equal.
    destruct (Z.ltb_spec z 0) as [Hneg | Hnn].
    + rewrite <- (Z_mod_plus_full z 1 (2 * half)).
      rewrite Z.mod_small by lia.
      replace (z + 1 * (2 * half) <? half) with false by (symmetry; apply Z.ltb_ge; lia).
      lia.
    + rewrite Z.mod_small by lia.
      replace (z <? half) with true by (symmetry; apply Z.ltb_lt; lia).
      reflexivity.
Qed.

Lemma int16_round_trip (z : Z) (rest : Cursor) :
  - 2 ^ 15 <= z < 2 ^ 15 ->
  Int16.encode (VInt z) = Ok (struct.be_bytes 2 z) /\
  Int16.decode (struct.be_bytes 2 z ++ rest) = Ok (z, rest).
Proof. intros Hz. apply (fixed_int_round_trip 2 z rest); [lia | exact Hz]. Qed.

Lemma int32_round_trip (z : Z) (rest : Cursor) :
  - 2 ^ 31 <= z < 2 ^ 31 ->
  Int32.encode (VInt z) = Ok (struct.be_bytes 4 z) /\
  Int32.decode (struct.be_bytes 4 z ++ rest) = Ok (z, rest).
Proof. intros Hz. apply (fixed_int_round_trip 4 z rest); [lia | exact Hz]. Qed.

(** ** The round-trip law, codec by codec *)

Lemma round_trips_Int32 (z : Z) :
  - 2 ^ 31 <= z < 2 ^ 31 -> round_trips Int32 (VInt z).
Proof.
  intros Hz. exists (struct.be_bytes 4 z). split.
  - apply (int32_round_trip z []). exact Hz.
  - intros rest. cbn [decode]. unfold int_value, rbind.
    rewrite (proj2 (int32_round_trip z rest Hz)). reflexivity.
Qed.

Lemma round_trips_String (encoding : Encoding) (s : text) :
  transcodes encoding (2 ^ 15 - 1) s -> round_trips (String encoding) (VStr s).
Proof.
  intros (b & Henc & Hdec & Hlen).
  assert (Hz : - 2 ^ 15 <= Z.of_nat (List.length b) < 2 ^ 15) by lia.
  exists (struct.be_bytes 2 (Z.of_nat (List.length b)) ++ b). split.
  - cbn [encode]. unfold String.encode. cbn [py_str bind].
    rewrite Henc. cbn [bind len_encoder String.cls].
    rewrite (proj1 (int16_round_trip _ [] Hz)). reflexivity.
  - intros rest. cbn [decode]. unfold String.decode, rbind.
    cbn [len_decoder String.cls]. rewrite <- app_assoc.
    rewrite (proj2 (int16_round_trip _ (b ++ rest) Hz)).
    replace (Z.of_nat (List.length b) <? 0) with false by (symmetry; apply Z.ltb_ge; lia).
    rewrite read_exact by reflexivity.
    rewrite Z.eqb_refl. cbn [negb]. rewrite Hdec. reflexivity.
Qed.

Lemma fields_round_trip (fields : list (string * AbstractType)) (items : list value) :
  Forall2 (fun field x => round_trips (snd field) x) fields items ->
  exists parts,
    Schema.encode_fields (fun field x => encode field x) fields items = Ok parts /\
    forall rest,
      Schema.decode_fields (fun field => decode field) fields (List.concat parts ++ rest) =
      Ok (items, rest).
Proof.
  induction 1 as [| [name field] x fields items (e & He & Hd) _ (parts & Hp & Hr)].
  - exists []. split; reflexivity.
  - exists (e :: parts). cbn [snd] in *. split.
    + cbn [Schema.encode_fields]. rewrite He. cbn [bind]. rewrite Hp. reflexivity.
    + intros rest. cbn [Schema.decode_fields List.concat]. unfold rbind.
      rewrite <- app_assoc, Hd, Hr. reflexivity.
Qed.

Lemma round_trips_Schema (fields : list (string * AbstractType)) (items : list value) :
  Forall2 (fun field x => round_trips (snd field) x) fields items ->
  round_trips (Schema fields) (VTuple items).
Proof.
  intros Hall.
  destruct (fields_round_trip fields items Hall) as (parts & Hp & Hr).
  exists (List.concat parts). split.
  - cbn [encode]. unfold Schema.encode. cbn [py_len py_items bind].
    rewrite (Forall2_length Hall), Z.eqb_refl. cbn [negb bind].
    rewrite Hp. reflexivity.
  - intros rest. cbn [decode]. unfold Schema.decode, rbind.
    rewrite Hr. reflexivity.
Qed.

Lemma items_round_trip (array_of : AbstractType) (items : list value) :
  Forall (round_trips array_of) items ->
  exists parts,
    Array.encode_items (fun item => encode array_of item) items = Ok parts /\
    forall rest,
      Array.decode_items (decode array_of) (List.length items) (List.concat parts ++ rest) =
      Ok (items, rest).
Proof.
  induction 1 as [| x items (e & He & Hd) _ (parts & Hp & Hr)].
  - exists []. split; reflexivity.
  - exists (e :: parts). split.
    + cbn [Array.encode_items]. rewrite He. cbn [bind]. rewrite Hp. reflexivity.
    + intros rest. cbn [Array.decode_items List.concat List.length]. unfold rbind.
      rewrite <- app_assoc, Hd, Hr. reflexivity.
Qed.

Lemma round_trips_Array (array_of : AbstractType) (items : list value) :
  Forall (round_trips array_of) items ->
  Z.of_nat (List.length items) < 2 ^ 31 ->
  round_trips (Array array_of) (VList items).
Proof.
  intros Hall Hlen.
  destruct (items_round_trip array_of items Hall) as (parts & Hp & Hr).
  assert (Hz : - 2 ^ 31 <= Z.of_nat (List.length items) < 2 ^ 31) by lia.
  exists (List.concat (struct.be_bytes 4 (Z.of_nat (List.length items)) :: parts)). split.
  - cbn [encode]. unfold Array.encode. cbn [py_len py_items bind len_encoder Array.cls].
    rewrite (proj1 (int32_round_trip _ [] Hz)). cbn [bind].
    rewrite Hp. reflexivity.
  - intros rest. cbn [decode]. unfold Array.decode, rbind.
    cbn [len_decoder Array.cls List.concat]. rewrite <- app_assoc.
    rewrite (proj2 (int32_round_trip _ (List.concat parts ++ rest) Hz)).
    replace (Z.of_nat (List.length items) =? -1) with false
      by (symmetry; apply Z.eqb_neq; lia).
    rewrite Nat2Z.id, Hr. reflexivity.
Qed.

(** ** UTF-8 *)

Lemma land_disjoint (h l n : Z) :
  0 <= n -> 0 <= l < 2 ^ n -> Z.land (Z.shiftl h n) l = 0.
Proof.
  intros Hn Hl. apply Z.bits_inj'. intros k Hk.
  rewrite Z.land_spec, Z.bits_0.
  destruct (Z.ltb_spec k n) as [Hlt | Hge].
  - rewrite Z.shiftl_spec_low by lia. reflexivity.
  - destruct (Z.eq_dec l 0) as [-> | Hnz].
    + rewrite Z.bits_0. apply andb_false_r.
    + rewrite (Z.bits_above_log2 l k); [apply andb_false_r | lia |].
      apply Z.log2_lt_pow2; [lia |].
      apply Z.lt_le_trans with (2 ^ n); [lia |].
      apply Z.pow_le_mono_r; lia.
Qed.

Lemma lor_high_low (h l n : Z) :
  0 <= n -> 0 <= l < 2 ^ n -> Z.lor (Z.shiftl h n) l = h * 2 ^ n + l.
Proof.
  intros Hn Hl.
  pose proof (Z.add_lor_land (Z.shiftl h n) l) as Hadd.
  rewrite land_disjoint in Hadd by assumption.
  rewrite Z.shiftl_mul_pow2 in * by lia. lia.
Qed.

Ltac zdm := Z.div_mod_to_equations; lia.

Lemma lead2 (c : Z) : 0x80 <= c < 0x800 -> Z.lor 0xC0 (Z.shiftr c 6) = 192 + c / 64.
Proof.
  intros Hc. change 0xC0 with (Z.shiftl 3 6).
  rewrite Z.shiftr_div_pow2 by lia. change (2 ^ 6) with 64.
  rewrite lor_high_low; [reflexivity | lia |]. change (2 ^ 6) with 64. zdm.
Qed.

Lemma lead3 (c : Z) : 0x800 <= c < 0x10000 -> Z.lor 0xE0 (Z.shiftr c 12) = 224 + c / 4096.
Proof.
  intros Hc. change 0xE0 with (Z.shiftl 7 5).
  rewrite Z.shiftr_div_pow2 by lia. change (2 ^ 12) with 4096.
  rewrite lor_high_low; [reflexivity | lia |]. change (2 ^ 5) with 32. zdm.
Qed.

Lemma lead4 (c : Z) : 0x10000 <= c < 0x110000 -> Z.lor 0xF0 (Z.shiftr c 18) = 240 + c / 262144.
Proof.
  intros Hc. change 0xF0 with (Z.shiftl 15 4).
  rewrite Z.shiftr_div_pow2 by lia. change (2 ^ 18) with 262144.
  rewrite lor_high_low; [reflexivity | lia |]. change (2 ^ 4) with 16. zdm.
Qed.

Lemma trail (y : Z) : Z.lor 0x80 (Z.land y 0x3f) = 128 + y mod 64.
Proof.
  change 0x3f with (Z.ones 6). rewrite Z.land_ones by lia. change (2 ^ 6) with 64.
  change 0x80 with (Z.shiftl 2 6).
  rewrite lor_high_low; [reflexivity | lia |]. change (2 ^ 6) with 64. zdm.
Qed.

Lemma trail_byte (m : Z) :
  0 <= m < 64 ->
  codecs.is_trail (byte.of_Z (128 + m)) = true /\
  codecs.trail_bits (byte.of_Z (128 + m)) = m.
Proof.
  intros Hm. unfold codecs.is_trail, codecs.trail_bits.
  rewrite unsigned_of_Z_small by lia. split.
  - apply andb_true_iff. split; [apply Z.leb_le | apply Z.ltb_lt]; lia.
  - change 0x3f with (Z.ones 6). rewrite Z.land_ones by lia.
    change (2 ^ 6) with 64. zdm.
Qed.

Lemma is_trail_byte (m : Z) : 0 <= m < 64 -> codecs.is_trail (byte.of_Z (128 + m)) = true.
Proof. apply trail_byte. Qed.

Lemma trail_bits_byte (m : Z) : 0 <= m < 64 -> codecs.trail_bits (byte.of_Z (128 + m)) = m.
Proof. apply trail_byte. Qed.

Lemma mod64_range (y : Z) : 0 <= y mod 64 < 64.
Proof. apply Z.mod_pos_bound. lia. Qed.

Lemma land_low (x n : Z) : 0 <= n -> Z.land x (Z.ones n) = x mod 2 ^ n.
Proof. apply Z.land_ones. Qed.

Lemma Ok_inj {A : Type} (a b : A) : Ok a = Ok b -> a = b.
Proof. intros H. injection H as H. exact H. Qed.

Ltac head_test a b :=
  destruct (Z.ltb_spec a b); try (exfalso; lia).

Lemma utf_8_decode_1 (x0 : byte) (r : list byte) :
  byte.unsigned x0 < 128 ->
  codecs.utf_8_decode (x0 :: r) =
  (s <- codecs.utf_8_decode r ;; Ok (byte.unsigned x0 :: s))%result.
Proof.
  intros Hx. destruct r; cbn [codecs.utf_8_decode];
    head_test (byte.unsigned x0) 128; reflexivity.
Qed.

Lemma utf_8_decode_2 (x0 x1 : byte) (r : list byte) :
  194 <= byte.unsigned x0 < 224 ->
  codecs.is_trail x1 = true ->
  codecs.utf_8_decode (x0 :: x1 :: r) =
  (s <- codecs.utf_8_decode r ;;
   Ok (Z.lor (Z.shiftl (Z.land (byte.unsigned x0) 0x1f) 6) (codecs.trail_bits x1) :: s))%result.
Proof.
  intros Hx Ht. destruct r; cbn [codecs.utf_8_decode];
    head_test (byte.unsigned x0) 128; head_test (byte.unsigned x0) 194;
    head_test (byte.unsigned x0) 224; rewrite Ht; reflexivity.
Qed.

Lemma utf_8_decode_3 (x0 x1 x2 : byte) (r : list byte) :
  224 <= byte.unsigned x0 < 240 ->
  codecs.is_trail x1 = true ->
  codecs.is_trail x2 = true ->
  codecs.utf_8_decode (x0 :: x1 :: x2 :: r) =
  let c := Z.lor (Z.shiftl (Z.land (byte.unsigned x0) 0x0f) 12)
             (Z.lor (Z.shiftl (codecs.trail_bits x1) 6) (codecs.trail_bits x2)) in
  if (c <? 0x800) || ((0xD800 <=? c) && (c <=? 0xDFFF)) then Raise UnicodeError
  else (s <- codecs.utf_8_decode r ;; Ok (c :: s))%result.
Proof.
  intros Hx Ht1 Ht2. destruct r; cbn [codecs.utf_8_decode];
    head_test (byte.unsigned x0) 128; head_test (byte.unsigned x0) 194;
    head_test (byte.unsigned x0) 224; head_test (byte.unsigned x0) 240;
    rewrite Ht1, Ht2; reflexivity.
Qed.

Lemma utf_8_decode_4 (x0 x1 x2 x3 : byte) (r : list byte) :
  240 <= byte.unsigned x0 < 245 ->
  codecs.is_trail x1 = true ->
  codecs.is_trail x2 = true ->
  codecs.is_trail x3 = true ->
  codecs.utf_8_decode (x0 :: x1 :: x2 :: x3 :: r) =
  let c := Z.lor (Z.shiftl (Z.land (byte.unsigned x0) 0x07) 18)
             (Z.lor (Z.shiftl (codecs.trail_bits x1) 12)
                (Z.lor (Z.shiftl (codecs.trail_bits x2) 6) (codecs.trail_bits x3))) in
  if (c <? 0x10000) || (0x10FFFF <? c) then Raise UnicodeError
  else (s <- codecs.utf_8_decode r ;; Ok (c :: s))%result.
Proof.
  intros Hx Ht1 Ht2 Ht3. destruct r; cbn [codecs.utf_8_decode];
    head_test (byte.unsigned x0) 128; head_test (byte.unsigned x0) 194;
    head_test (byte.unsigned x0) 224; head_test (byte.unsigned x0) 240;
    head_test (byte.unsigned x0) 245;
    rewrite Ht1, Ht2, Ht3; reflexivity.
Qed.

Lemma utf_8_char_round_trip (c : Z) (b r : list byte) :
  codecs.utf_8_encode_char c = Ok b ->
  codecs.utf_8_decode (b ++ r) = (s <- codecs.utf_8_decode r ;; Ok (c :: s))%result.
Proof.
  unfold codecs.utf_8_encode_char.
  pose proof (mod64_range c) as Hm.
  pose proof (mod64_range (c / 64)) as Hm'.
  pose proof (mod64_range (c / 4096)) as Hm''.
  destruct (Z.ltb_spec c 0) as [H0 | H0]; [discriminate |].
  destruct (Z.ltb_spec c 0x80) as [H1 | H1].
  { intros E. apply Ok_inj in E. subst b. cbn [app].
    rewrite utf_8_decode_1; rewrite unsigned_of_Z_small by lia; [reflexivity | lia]. }
  destruct (Z.ltb_spec c 0x800) as [H2 | H2].
  { rewrite lead2, trail by lia. intros E. apply Ok_inj in E. subst b. cbn [app].
    rewrite utf_8_decode_2;
      [| rewrite unsigned_of_Z_small by zdm; zdm | apply is_trail_byte; assumption].
    rewrite trail_bits_byte, unsigned_of_Z_small by (assumption || zdm).
    change 31 with (Z.ones 5). rewrite land_low by lia. change (2 ^ 5) with 32.
    rewrite lor_high_low by (assumption || lia). change (2 ^ 6) with 64.
    replace ((192 + c / 64) mod 32 * 64 + c mod 64) with c by zdm.
    reflexivity. }
  destruct (Z.ltb_spec c 0x10000) as [H3 | H3].
  { destruct ((0xD800 <=? c) && (c <=? 0xDFFF)) eqn:Hsur; [discriminate |].
    rewrite lead3, !trail by lia. rewrite Z.shiftr_div_pow2 by lia.
    change (2 ^ 6) with 64. intros E. apply Ok_inj in E. subst b. cbn [app].
    rewrite utf_8_decode_3;
      [| rewrite unsigned_of_Z_small by zdm; zdm
       | apply is_trail_byte; assumption | apply is_trail_byte; assumption].
    rewrite !trail_bits_byte, unsigned_of_Z_small by (assumption || zdm).
    change 15 with (Z.ones 4). rewrite land_low by lia. change (2 ^ 4) with 16.
    rewrite (lor_high_low _ (c mod 64)) by (assumption || lia). change (2 ^ 6) with 64.
    rewrite lor_high_low by (lia || (change (2 ^ 12) with 4096; lia)).
    change (2 ^ 12) with 4096.
    replace ((224 + c / 4096) mod 16 * 4096 + (c / 64 mod 64 * 64 + c mod 64)) with c by zdm.
    cbv zeta. rewrite Hsur.
    replace (c <? 2048) with false by (symmetry; apply Z.ltb_ge; lia).
    reflexivity. }
  destruct (Z.ltb_spec c 0x110000) as [H4 | H4]; [| discriminate].
  rewrite lead4, !trail by lia. rewrite !Z.shiftr_div_pow2 by lia.
  change (2 ^ 6) with 64. change (2 ^ 12) with 4096.
  intros E. apply Ok_inj in E. subst b. cbn [app].
  rewrite utf_8_decode_4;
    [| rewrite unsigned_of_Z_small by zdm; zdm
     | apply is_trail_byte; assumption | apply is_trail_byte; assumption
     | apply is_trail_byte; assumption].
  rewrite !trail_bits_byte, unsigned_of_Z_small by (assumption || zdm).
  change 7 with (Z.ones 3). rewrite land_low by lia. change (2 ^ 3) with 8.
  rewrite (lor_high_low _ (c mod 64)) by (assumption || lia). change (2 ^ 6) with 64.
  rewrite (lor_high_low (c / 4096 mod 64)) by (lia || (change (2 ^ 12) with 4096; lia)).
  change (2 ^ 12) with 4096.
  rewrite lor_high_low by (lia || (change (2 ^ 18) with 262144; lia)).
  change (2 ^ 18) with 262144.
  replace ((240 + c / 262144) mod 8 * 262144 +
           (c / 4096 mod 64 * 4096 + (c / 64 mod 64 * 64 + c mod 64))) with c by zdm.
  cbv zeta.
  replace (c <? 65536) with false by (symmetry; apply Z.ltb_ge; lia).
  replace (1114111 <? c) with false by (symmetry; apply Z.ltb_ge; lia).
  reflexivity.
Qed.

Lemma utf_8_round_trip (s : text) :
  forall b, codecs.utf_8_encode s = Ok b -> codecs.utf_8_decode b = Ok s.
Proof.
  induction s as [| c s IH]; intros b.
  - intros E. apply Ok_inj in E. subst b. reflexivity.
  - cbn [codecs.utf_8_encode].
    destruct (codecs.utf_8_encode_char c) as [bc | |] eqn:Hc; try discriminate.
    cbn [bind].
    destruct (codecs.utf_8_encode s) as [bs | |]; try discriminate.
    cbn [bind]. intros E. apply Ok_inj in E. subst b.
    rewrite (utf_8_char_round_trip c bc bs Hc).
    rewrite (IH bs eq_refl). reflexivity.
Qed.

Lemma transcodes_utf_8 (s : text) (b : list byte) (n : Z) :
  codecs.utf_8_encode s = Ok b ->
  Z.of_nat (List.length b) <= n ->
  transcodes codecs.utf_8 n s.
Proof.
  intros Henc Hlen. exists b. split; [exact Henc | split; [| exact Hlen]].
  apply utf_8_round_trip. exact Henc.
Qed.

(** ** Array of Schema *)

Lemma round_trips_pairs (encoding : Encoding) (k v : string) (pairs : list (Z * text)) :
  Forall (fun p => - 2 ^ 31 <= fst p < 2 ^ 31 /\ transcodes encoding (2 ^ 15 - 1) (snd p))
         pairs ->
  Forall (round_trips (Schema [(k, Int32); (v, String encoding)]))
         (map (fun p => VTuple [VInt (fst p); VStr (snd p)]) pairs).
Proof.
  induction 1 as [| p pairs [Hint Hstr] _ IH]; cbn [map]; constructor.
  - apply round_trips_Schema.
    repeat constructor; cbn [snd].
    + apply round_trips_Int32. exact Hint.
    + apply round_trips_String. exact Hstr.
  - exact IH.
Qed.

(** C3, as the code has it.  For an [Array] of the 2-field [Schema]
    ([Int32], [String]) and every sequence of fewer than [2^31] pairs whose
    first components are signed 32-bit integers and whose second components
    are strings that the text encoding takes to at most 32767 bytes and
    back, [Array.encode] returns and decoding its bytes gives the same
    sequence of tuples, with nothing left in the buffer.  UTF-8, the default
    encoding, takes every string it encodes back.  The sequence
    [(1, "a"), (2, "bb")] is such a one. *)
Theorem array_of_schema_round_trip :
  (forall (encoding : Encoding) (k v : string) (pairs : list (Z * text)),
      Z.of_nat (List.length pairs) < 2 ^ 31 ->
      Forall (fun p => - 2 ^ 31 <= fst p < 2 ^ 31 /\
                       transcodes encoding (2 ^ 15 - 1) (snd p)) pairs ->
      exists out,
        encode (Array (Schema [(k, Int32); (v, String encoding)])) (pairs_value pairs) =
        Ok out /\
        decode (Array (Schema [(k, Int32); (v, String encoding)])) out =
        Ok (pairs_value pairs, []) /\
        forall rest,
          decode (Array (Schema [(k, Int32); (v, String encoding)])) (out ++ rest) =
          Ok (pairs_value pairs, rest)) /\
  (forall (s : text) (b : list byte),
      str_encode codecs.utf_8 s = Ok b ->
      Z.of_nat (List.length b) <= 2 ^ 15 - 1 ->
      transcodes codecs.utf_8 (2 ^ 15 - 1) s) /\
  encode (Array (Schema [("k"%string, Int32); ("v"%string, String codecs.utf_8)]))
    (pairs_value [(1, str "a"); (2, str "bb")]) =
  Ok (bytes_of [0; 0; 0; 2;
                0; 0; 0; 1; 0; 1; 0x61;
                0; 0; 0; 2; 0; 2; 0x62; 0x62]) /\
  decode (Array (Schema [("k"%string, Int32); ("v"%string, String codecs.utf_8)]))
    (bytes_of [0; 0; 0; 2;
               0; 0; 0; 1; 0; 1; 0x61;
               0; 0; 0; 2; 0; 2; 0x62; 0x62]) =
  Ok (pairs_value [(1, str "a"); (2, str "bb")], []).
Proof.
  split; [| split; [| split]].
  - intros encoding k v pairs Hlen Hall.
    destruct (round_trips_Array (Schema [(k, Int32); (v, String encoding)])
                (map (fun p => VTuple [VInt (fst p); VStr (snd p)]) pairs))
      as (out & Henc & Hdec).
    + apply round_trips_pairs. exact Hall.
    + rewrite length_map. exact Hlen.
    + exists out. split; [exact Henc | split; [| exact Hdec]].
      rewrite <- (app_nil_r out) at 1. apply Hdec.
  - intros s b Henc Hlen. exact (transcodes_utf_8 s b _ Henc Hlen).
  - vm_compute. reflexivity.
  - vm_compute. reflexivity.
Qed.

Lemma array_of_schema_round_trip_witness :
  Z.of_nat (List.length [(1, str "a"); (2, str "bb")]) < 2 ^ 31 /\
  Forall (fun p => - 2 ^ 31 <= fst p < 2 ^ 31 /\
                   transcodes codecs.utf_8 (2 ^ 15 - 1) (snd p))
         [(1, str "a"); (2, str "bb")] /\
  exists out,
    encode (Array (Schema [("k"%string, Int32); ("v"%string, String codecs.utf_8)]))
      (pairs_value [(1, str "a"); (2, str "bb")]) = Ok out /\
    decode (Array (Schema [("k"%string, Int32); ("v"%string, String codecs.utf_8)])) out =
    Ok (pairs_value [(1, str "a"); (2, str "bb")], []) /\
    forall rest,
      decode (Array (Schema [("k"%string, Int32); ("v"%string, String codecs.utf_8)]))
        (out ++ rest) =
      Ok (pairs_value [(1, str "a"); (2, str "bb")], rest).
Proof.
  assert (Hlen : Z.of_nat (List.length [(1, str "a"); (2, str "bb")]) < 2 ^ 31)
    by (vm_compute; reflexivity).
  assert (Hall : Forall (fun p => - 2 ^ 31 <= fst p < 2 ^ 31 /\
                                  transcodes codecs.utf_8 (2 ^ 15 - 1) (snd p))
                        [(1, str "a"); (2, str "bb")]).
  { repeat constructor; cbn [fst snd]; try lia.
    - exists (bytes_of [0x61]). repeat split; vm_compute; congruence.
    - exists (bytes_of [0x62; 0x62]). repeat split; vm_compute; congruence. }
  split; [exact Hlen | split; [exact Hall |]].
  exact (proj1 array_of_schema_round_trip codecs.utf_8 "k"%string "v"%string _ Hlen Hall).
Defined.

(** C3 as stated fails for a string of 32768 characters: its length does
    not fit the [Int16] prefix of [String], packing it raises and [_pack]
    turns that into [ValueError], so [Array.encode] produces no bytes. *)
Lemma array_of_schema_long_string :
  encode (Array (Schema [("k"%string, Int32); ("v"%string, String codecs.utf_8)]))
    (pairs_value [(1, repeat 0x61 (Z.to_nat 32768))]) =
  Raise (ValueError convert_error).
Proof. vm_compute. reflexivity. Qed.

(** * Further properties *)

(** ** The shape and size of a varint *)

Lemma lor_bound (a b n : Z) :
  0 <= n -> 0 <= a < 2 ^ n -> 0 <= b < 2 ^ n -> 0 <= Z.lor a b < 2 ^ n.
Proof.
  intros Hn Ha Hb. split; [apply Z.lor_nonneg; lia |].
  destruct (Z.eq_dec a 0) as [-> | Ha0]; [rewrite Z.lor_0_l; lia |].
  destruct (Z.eq_dec b 0) as [-> | Hb0]; [rewrite Z.lor_0_r; lia |].
  apply Z.log2_lt_pow2.
  - assert (0 <= Z.lor a b) by (apply Z.lor_nonneg; lia).
    assert (Z.lor a b <> 0) by (intros H0; apply Z.lor_eq_0_iff in H0; lia).
    lia.
  - rewrite Z.log2_lor by lia.
    apply Z.max_lub_lt; apply Z.log2_lt_pow2; lia.
Qed.

Lemma group_bound (x : byte) (i : Z) :
  0 <= i -> 0 <= Z.shiftl (byte.unsigned x mod 128) i < 2 ^ (i + 7).
Proof.
  intros Hi. pose proof (Z.mod_pos_bound (byte.unsigned x) 128 ltac:(lia)) as Hm.
  rewrite Z.shiftl_mul_pow2, Z.pow_add_r by lia.
  pose proof (Z.pow_pos_nonneg 2 i ltac:(lia) Hi). change (2 ^ 7) with 128. nia.
Qed.

Lemma groups_value_bound (data : list byte) :
  forall i : Z,
    0 <= i -> 0 <= groups_value i data < 2 ^ (i + 7 * Z.of_nat (List.length data)).
Proof.
  induction data as [| x data IH]; intros i Hi.
  - cbn [groups_value List.length]. split; [lia |]. apply Z.pow_pos_nonneg; lia.
  - rewrite groups_value_cons. cbn [List.length]. rewrite Nat2Z.inj_succ.
    replace (i + 7 * Z.succ (Z.of_nat (List.length data)))
      with (i + 7 + 7 * Z.of_nat (List.length data)) by lia.
    apply lor_bound; [lia | | apply IH; lia].
    pose proof (group_bound x i Hi) as Hg. split; [lia |].
    apply Z.lt_le_trans with (2 ^ (i + 7)); [lia |].
    apply Z.pow_le_mono_r; lia.
Qed.

Lemma varint_size_step (v : Z) :
  128 <= v < 2 ^ 32 -> varint_size v = S (varint_size (Z.shiftr v 7)).
Proof.
  intros Hv. rewrite Z.shiftr_div_pow2 by lia. unfold varint_size.
  change (2 ^ 7) with 128. change (2 ^ 14) with 16384.
  change (2 ^ 21) with 2097152. change (2 ^ 28) with 268435456.
  change (2 ^ 32) with 4294967296 in Hv.
  repeat match goal with
         | |- context [?a <? ?b] =>
             destruct (Z.ltb_spec a b); try (exfalso; Z.div_mod_to_equations; lia)
         end; reflexivity.
Qed.

(** What the writer emits for a value of 32 bits: continuation bytes, then
    one byte without the continuation bit; its groups are the value. *)
Lemma write_shape (n : nat) :
  forall (v : Z) (buffer : list byte) (i : Z),
    0 <= v < 2 ^ 32 ->
    v < 2 ^ (7 * (Z.of_nat n + 1)) ->
    0 <= i ->
    exists conts last,
      VarInt.write_unsigned_varint_loop n v buffer = Ok (buffer ++ conts ++ [last]) /\
      Forall is_continuation conts /\
      byte.unsigned last < 128 /\
      S (List.length conts) = varint_size v /\
      groups_value i (conts ++ [last]) = Z.shiftl v i.
Proof.
  assert (Hexit : forall (n : nat) (v : Z) (buffer : list byte) (i : Z),
             0 <= v < 128 -> 0 <= i ->
             exists conts last,
               VarInt.write_unsigned_varint_loop n v buffer = Ok (buffer ++ conts ++ [last]) /\
               Forall is_continuation conts /\
               byte.unsigned last < 128 /\
               S (List.length conts) = varint_size v /\
               groups_value i (conts ++ [last]) = Z.shiftl v i).
  { intros k v buffer i Hv Hi. exists [], (byte.of_Z v).
    rewrite unsigned_of_Z_small by lia. repeat split.
    - rewrite write_loop_exit by (rewrite Z.mod_small; lia).
      unfold struct.pack_B.
      replace ((0 <=? v) && (v <=? 255)) with true; [reflexivity |].
      symmetry. apply andb_true_iff. split; apply Z.leb_le; lia.
    - constructor.
    - lia.
    - unfold varint_size.
      replace (v <? 2 ^ 7) with true by (symmetry; apply Z.ltb_lt; lia). reflexivity.
    - cbn [app]. rewrite groups_value_cons. cbn [groups_value].
      rewrite unsigned_of_Z_small, Z.lor_0_r, Z.mod_small by lia. reflexivity. }
  induction n as [| n IH]; intros v buffer i Hv Hn Hi.
  - apply Hexit; [| exact Hi]. change (2 ^ (7 * (Z.of_nat 0 + 1))) with 128 in Hn. lia.
  - destruct (Z.ltb_spec v 128) as [Hsmall | Hbig]; [apply Hexit; lia |].
    assert (Hshift : 0 <= Z.shiftr v 7 < 2 ^ 32 /\
                     Z.shiftr v 7 < 2 ^ (7 * (Z.of_nat n + 1))).
    { rewrite Z.shiftr_div_pow2 by lia. change (2 ^ 7) with 128.
      repeat split.
      - apply Z.div_pos; lia.
      - apply Z.div_lt_upper_bound; lia.
      - apply Z.div_lt_upper_bound; [lia |].
        change 128 with (2 ^ 7). rewrite <- Z.pow_add_r by lia.
        replace (7 + 7 * (Z.of_nat n + 1)) with (7 * (Z.of_nat (S n) + 1)) by lia.
        assumption. }
    destruct Hshift as [Hs32 Hsn].
    pose proof (Z.mod_pos_bound v 128 ltac:(lia)) as Hm.
    destruct (IH (Z.shiftr v 7) (buffer ++ [byte.of_Z (v mod 128 + 128)]) (i + 7)
                 Hs32 Hsn ltac:(lia))
      as (conts & last & Hw & Hc & Hl & Hsize & Hg).
    exists (byte.of_Z (v mod 128 + 128) :: conts), last. repeat split.
    + rewrite write_loop_continue by (rewrite Z.mod_small; lia).
      rewrite Hw, <- app_assoc. reflexivity.
    + constructor; [| exact Hc].
      unfold is_continuation. rewrite unsigned_of_Z_small by lia. lia.
    + exact Hl.
    + rewrite varint_size_step by lia. cbn [List.length]. congruence.
    + cbn [app]. rewrite groups_value_cons, Hg, unsigned_of_Z_small by lia.
      replace ((v mod 128 + 128) mod 128) with (v mod 128)
        by (Z.div_mod_to_equations; lia).
      apply split_low_group. exact Hi.
Qed.

(** X1.  For a value of 32 bits [write_unsigned_varint] returns a
    well-formed varint: every byte but the last has the continuation bit,
    the last has not, and the 7-bit groups, least significant first, are
    the value. *)
Theorem write_unsigned_varint_shape :
  forall v : Z,
    0 <= v < 2 ^ 32 ->
    exists conts last,
      VarInt.write_unsigned_varint v = Ok (conts ++ [last]) /\
      Forall is_continuation conts /\
      byte.unsigned last < 128 /\
      groups_value 0 (conts ++ [last]) = v.
Proof.
  intros v Hv.
  destruct (write_shape 4 v [] 0 Hv) as (conts & last & Hw & Hc & Hl & _ & Hg);
    try (cbn; lia).
  exists conts, last.
  split; [| split; [exact Hc | split; [exact Hl |]]].
  - rewrite (write_unsigned_varint_fuel 4) by (lia || (rewrite Hw; discriminate)).
    exact Hw.
  - rewrite Hg. apply Z.shiftl_0_r.
Qed.

Lemma write_unsigned_varint_shape_witness :
  0 <= 300 < 2 ^ 32 /\
  exists conts last,
    VarInt.write_unsigned_varint 300 = Ok (conts ++ [last]) /\
    Forall is_continuation conts /\
    byte.unsigned last < 128 /\
    groups_value 0 (conts ++ [last]) = 300.
Proof.
  assert (H : 0 <= 300 < 2 ^ 32) by lia.
  split; [exact H |].
  exact (write_unsigned_varint_shape 300 H).
Defined.

Lemma unsigned_varint_size (v : Z) :
  0 <= v < 2 ^ 32 ->
  exists out,
    VarInt.write_unsigned_varint v = Ok out /\
    List.length out = varint_size v.
Proof.
  intros Hv.
  destruct (write_shape 4 v [] 0 Hv) as (conts & last & Hw & _ & _ & Hsize & _);
    try (cbn; lia).
  exists (conts ++ [last]). split.
  - rewrite (write_unsigned_varint_fuel 4) by (lia || (rewrite Hw; discriminate)).
    exact Hw.
  - rewrite length_app. cbn [List.length]. lia.
Qed.

(** X2.  The number of bytes [write_unsigned_varint] returns for a value
    of 32 bits: one below [2^7], two below [2^14], three below [2^21], four
    below [2^28] and five from there on. *)
Theorem write_unsigned_varint_size :
  forall v : Z,
    0 <= v < 2 ^ 32 ->
    exists out,
      VarInt.write_unsigned_varint v = Ok out /\
      List.length out = varint_size v.
Proof.
  intros v Hv.
  destruct (unsigned_varint_size v Hv) as (out & Hw & Hlen).
  exists out. split; [exact Hw | exact Hlen].
Qed.

Lemma write_unsigned_varint_size_witness :
  0 <= 16384 < 2 ^ 32 /\
  exists out,
    VarInt.write_unsigned_varint 16384 = Ok out /\
    List.length out = 3%nat.
Proof.
  assert (H : 0 <= 16384 < 2 ^ 32) by lia.
  split; [exact H |].
  exact (write_unsigned_varint_size 16384 H).
Defined.

(** ** What the reader does with any buffer *)

Lemma continuation_run_split (data : list byte) :
  exists conts tail,
    data = conts ++ tail /\
    Forall is_continuation conts /\
    List.length conts = continuation_run data /\
    (tail = [] \/ exists x r, tail = x :: r /\ byte.unsigned x < 128).
Proof.
  induction data as [| x data (conts & tail & Hd & Hc & Hl & Ht)].
  - exists [], []. repeat split; [constructor | left; reflexivity].
  - cbn [continuation_run].
    destruct (Z.leb_spec 128 (byte.unsigned x)) as [Hx | Hx].
    + exists (x :: conts), tail. repeat split.
      * cbn [app]. congruence.
      * constructor; assumption.
      * cbn [List.length]. congruence.
      * exact Ht.
    + exists [], (x :: data). repeat split; [constructor |].
      right. exists x, data. split; [reflexivity | exact Hx].
Qed.

Lemma read_cases (data : Cursor) :
  ((continuation_run data <= 4)%nat ->
   VarInt.read_unsigned_varint data =
   Ok (groups_value 0 (firstn (S (continuation_run data)) data),
       skipn (S (continuation_run data)) data) /\
   0 <= groups_value 0 (firstn (S (continuation_run data)) data) < 2 ^ 35) /\
  ((5 <= continuation_run data)%nat ->
   VarInt.read_unsigned_varint data =
   Raise (Exception (groups_value 0 (firstn 5 data)))).
Proof.
  destruct (continuation_run_split data) as (conts & tail & Hd & Hc & Hl & Ht).
  rewrite <- Hl. subst data. split.
  - intros Hk.
    assert (Hbound : forall l : list byte,
               (List.length l <= 5)%nat -> 0 <= groups_value 0 l < 2 ^ 35).
    { intros l Hlen. pose proof (groups_value_bound l 0 ltac:(lia)) as Hb.
      split; [lia |]. apply Z.lt_le_trans with (2 ^ (0 + 7 * Z.of_nat (List.length l))).
      - lia.
      - apply Z.pow_le_mono_r; lia. }
    destruct Ht as [-> | (x & r & -> & Hx)].
    + rewrite app_nil_r, firstn_all2, skipn_all2 by lia.
      split; [apply read_truncated; assumption | apply Hbound; lia].
    + replace (S (List.length conts)) with (List.length (conts ++ [x]))
        by (rewrite length_app; cbn [List.length]; lia).
      change (conts ++ x :: r) with (conts ++ [x] ++ r).
      rewrite app_assoc, firstn_exact, skipn_exact.
      split.
      * rewrite <- app_assoc. apply read_groups; assumption.
      * apply Hbound. rewrite length_app. cbn [List.length]. lia.
  - intros Hk.
    rewrite <- (firstn_skipn 5 conts), <- app_assoc.
    assert (Hl5 : List.length (firstn 5 conts) = 5%nat) by (rewrite length_firstn; lia).
    rewrite read_overflow by (assumption || (apply Forall_prefix; assumption)).
    do 2 f_equal. rewrite <- Hl5 at 2.
    rewrite firstn_exact. reflexivity.
Qed.

(** What a returning [read_unsigned_varint] gives: a value below [2^35],
    and the buffer without its first bytes, five at most. *)
Lemma read_returns (data rest : Cursor) (v : Z) :
  VarInt.read_unsigned_varint data = Ok (v, rest) ->
  0 <= v < 2 ^ 35 /\ exists k, (k <= 5)%nat /\ rest = skipn k data.
Proof.
  intros H. destruct (read_cases data) as [Hlow Hhigh].
  destruct (Nat.le_gt_cases (continuation_run data) 4) as [Hk | Hk].
  - destruct (Hlow Hk) as [Hr Hb]. rewrite Hr in H. injection H as <- <-.
    split; [exact Hb |]. exists (S (continuation_run data)). split; [lia | reflexivity].
  - rewrite (Hhigh ltac:(lia)) in H. discriminate.
Qed.

(** X3.  The outcome of [read_unsigned_varint] on any buffer, by the number
    [k] of continuation bytes it starts with.  With [k <= 4] the call
    returns the value of the first [k + 1] bytes, a value below [2^35], and
    leaves the cursor behind them; with [k >= 5] it raises [Exception] with
    the value of the first five.  So the reader takes at most five bytes,
    and a fifth byte of up to 7 bits lets it return values of more than 32
    bits, [2^35 - 1] at most. *)
Theorem read_unsigned_varint_outcomes :
  (forall data : Cursor,
      ((continuation_run data <= 4)%nat ->
       VarInt.read_unsigned_varint data =
       Ok (groups_value 0 (firstn (S (continuation_run data)) data),
           skipn (S (continuation_run data)) data) /\
       0 <= groups_value 0 (firstn (S (continuation_run data)) data) < 2 ^ 35) /\
      ((5 <= continuation_run data)%nat ->
       VarInt.read_unsigned_varint data =
       Raise (Exception (groups_value 0 (firstn 5 data))))) /\
  VarInt.read_unsigned_varint (bytes_of [0xff; 0xff; 0xff; 0xff; 0x7f]) =
  Ok (2 ^ 35 - 1, []).
Proof.
  split; [exact read_cases | vm_compute; reflexivity].
Qed.

Lemma read_unsigned_varint_outcomes_witness :
  (continuation_run (bytes_of [0x81; 0x02; 0x09]%Z) <= 4)%nat /\
  VarInt.read_unsigned_varint (bytes_of [0x81; 0x02; 0x09]) = Ok (257, bytes_of [0x09]).
Proof.
  assert (H : (continuation_run (bytes_of [0x81; 0x02; 0x09]%Z) <= 4)%nat)
    by (vm_compute; lia).
  split; [exact H |].
  exact (proj1 (proj1 (proj1 read_unsigned_varint_outcomes _) H)).
Defined.

(** X4.  The size of a signed varint: [write_varint] of a signed 32-bit
    [v] returns as many bytes as the unsigned varint of [2v] (for [v >= 0])
    or [-2v - 1] (for [v < 0]); it is a single byte exactly for
    [-64 <= v < 64]. *)
Theorem write_varint_size :
  forall v : Z,
    - 2 ^ 31 <= v < 2 ^ 31 ->
    exists out,
      VarInt.write_varint v = Ok out /\
      List.length out = varint_size (if v <? 0 then - 2 * v - 1 else 2 * v) /\
      (List.length out = 1%nat <-> -64 <= v < 64).
Proof.
  intros v Hv.
  destruct (unsigned_varint_size _ (zigzag_range v Hv)) as (out & Hw & Hlen).
  exists out. split; [exact Hw |].
  rewrite zigzag_unsigned in Hlen by assumption.
  split; [exact Hlen |].
  rewrite Hlen. unfold varint_size.
  change (2 ^ 7) with 128. change (2 ^ 14) with 16384.
  change (2 ^ 21) with 2097152. change (2 ^ 28) with 268435456.
  destruct (Z.ltb_spec v 0);
    repeat match goal with
           | |- context [?a <? ?b] => destruct (Z.ltb_spec a b)
           end; split; intros; (lia || discriminate || reflexivity).
Qed.

Lemma write_varint_size_witness :
  - 2 ^ 31 <= -64 < 2 ^ 31 /\
  exists out,
    VarInt.write_varint (-64) = Ok out /\
    List.length out = varint_size (if -64 <? 0 then - 2 * -64 - 1 else 2 * -64) /\
    (List.length out = 1%nat <-> -64 <= -64 < 64).
Proof.
  assert (H : - 2 ^ 31 <= -64 < 2 ^ 31) by lia.
  split; [exact H |].
  exact (write_varint_size (-64) H).
Defined.

(** ** Fixed-width integers *)

Lemma fixed_width_codec (t : AbstractType) (n : nat) :
  fixed_width t = Some n ->
  (0 < n)%nat /\
  (forall v, encode t v = _pack (struct.pack_int n) v) /\
  (forall data,
      decode t data =
      int_value (d <- read (Z.of_nat n) ;; lift (_unpack (struct.unpack_int n) d))%reader data).
Proof.
  destruct t; try discriminate; intros [= <-];
    (split; [lia | split; reflexivity]).
Qed.

Lemma half_double (n : nat) :
  (0 < n)%nat ->
  0 < 2 ^ (8 * Z.of_nat n - 1) /\
  2 ^ (8 * Z.of_nat n) = 2 * 2 ^ (8 * Z.of_nat n - 1).
Proof.
  intros Hn. split; [apply Z.pow_pos_nonneg; lia |].
  replace (8 * Z.of_nat n) with (1 + (8 * Z.of_nat n - 1)) at 1 by lia.
  rewrite Z.pow_add_r by lia. reflexivity.
Qed.

Lemma be_value_bound (data : list byte) :
  0 <= struct.be_value data < 2 ^ (8 * Z.of_nat (List.length data)).
Proof.
  induction data as [| x data IH].
  - cbn. lia.
  - unfold struct.be_value. cbn [fold_left]. rewrite be_value_from.
    cbn [List.length]. rewrite Nat2Z.inj_succ.
    replace (8 * Z.succ (Z.of_nat (List.length data)))
      with (8 + 8 * Z.of_nat (List.length data)) by lia.
    rewrite Z.pow_add_r by lia. change (2 ^ 8) with 256.
    pose proof (byte.unsigned_range x) as Hx. change (2 ^ 8) with 256 in Hx.
    nia.
Qed.

Lemma of_Z_mod (a k : Z) : byte.of_Z (a + k * 256) = byte.of_Z a.
Proof.
  apply byte.unsigned_inj. rewrite !byte.unsigned_of_Z. unfold byte.wrap.
  change (2 ^ 8) with 256. apply Z_mod_plus_full.
Qed.

(** The bytes of a value depend on it modulo [2^(8n)] only. *)
Lemma be_bytes_mod (n : nat) :
  forall (m : nat) (u k : Z),
    (n <= m)%nat ->
    struct.be_bytes n (u + k * 2 ^ (8 * Z.of_nat m)) = struct.be_bytes n u.
Proof.
  induction n as [| n IH]; intros m u k Hm; [reflexivity |].
  cbn [struct.be_bytes]. f_equal.
  - rewrite !Z.shiftr_div_pow2 by lia.
    replace (8 * Z.of_nat m) with (8 * Z.of_nat n + 8 + 8 * Z.of_nat (m - S n)) by lia.
    rewrite !Z.pow_add_r by lia. change (2 ^ 8) with 256.
    replace (u + k * (2 ^ (8 * Z.of_nat n) * 256 * 2 ^ (8 * Z.of_nat (m - S n))))
      with (u + (k * 2 ^ (8 * Z.of_nat (m - S n)) * 256) * 2 ^ (8 * Z.of_nat n)) by ring.
    rewrite Z.div_add by (apply Z.pow_nonzero; lia).
    apply of_Z_mod.
  - apply IH. lia.
Qed.

Lemma be_bytes_be_value (data : list byte) :
  struct.be_bytes (List.length data) (struct.be_value data) = data.
Proof.
  induction data as [| x data IH]; [reflexivity |].
  cbn [List.length struct.be_bytes].
  assert (Hv : struct.be_value (x :: data) =
               struct.be_value data +
               byte.unsigned x * 2 ^ (8 * Z.of_nat (List.length data))).
  { unfold struct.be_value. cbn [fold_left]. rewrite be_value_from.
    unfold struct.be_value. lia. }
  rewrite Hv. f_equal.
  - rewrite Z.shiftr_div_pow2 by lia.
    rewrite Z.div_add by (apply Z.pow_nonzero; lia).
    rewrite Z.div_small by apply be_value_bound.
    apply byte.of_Z_unsigned.
  - rewrite be_bytes_mod by lia. exact IH.
Qed.

(** X5.  A signed integer in the range of a fixed-width codec is encoded
    to exactly the codec's width in bytes, and decoding reads it back and
    leaves what follows. *)
Theorem fixed_width_round_trip :
  forall (t : AbstractType) (n : nat) (z : Z) (rest : Cursor),
    fixed_width t = Some n ->
    - 2 ^ (8 * Z.of_nat n - 1) <= z < 2 ^ (8 * Z.of_nat n - 1) ->
    exists out,
      encode t (VInt z) = Ok out /\
      List.length out = n /\
      decode t (out ++ rest) = Ok (VInt z, rest).
Proof.
  intros t n z rest Ht Hz.
  destruct (fixed_width_codec t n Ht) as (Hn & Henc & Hdec).
  destruct (fixed_int_round_trip n z rest Hn Hz) as [Hp Hu].
  exists (struct.be_bytes n z). split; [| split].
  - rewrite Henc. exact Hp.
  - apply length_be_bytes.
  - rewrite Hdec. unfold int_value. unfold rbind at 1. rewrite Hu. reflexivity.
Qed.

Lemma fixed_width_round_trip_witness :
  fixed_width Int64 = Some 8%nat /\
  - 2 ^ (8 * Z.of_nat 8 - 1) <= -2 < 2 ^ (8 * Z.of_nat 8 - 1) /\
  exists out,
    encode Int64 (VInt (-2)) = Ok out /\
    List.length out = 8%nat /\
    decode Int64 (out ++ bytes_of [0x2a]) = Ok (VInt (-2), bytes_of [0x2a]).
Proof.
  assert (H : - 2 ^ (8 * Z.of_nat 8 - 1) <= -2 < 2 ^ (8 * Z.of_nat 8 - 1))
    by (vm_compute; split; [discriminate | reflexivity]).
  split; [reflexivity | split; [exact H |]].
  exact (fixed_width_round_trip Int64 8 (-2) (bytes_of [0x2a]) eq_refl H).
Defined.

(** X6.  Outside that range, and for a value that is not an integer, the
    encoders of the fixed-width codecs raise the [ValueError] that wraps
    [struct.error]; nothing is truncated or wrapped around. *)
Theorem fixed_width_encode_error :
  forall (t : AbstractType) (n : nat) (v : value),
    fixed_width t = Some n ->
    match py_index v with
    | Some z => z < - 2 ^ (8 * Z.of_nat n - 1) \/ 2 ^ (8 * Z.of_nat n - 1) <= z
    | None => True
    end ->
    encode t v = Raise (ValueError convert_error).
Proof.
  intros t n v Ht Hv.
  destruct (fixed_width_codec t n Ht) as (_ & Henc & _).
  rewrite Henc. unfold _pack, struct.pack_int.
  destruct (py_index v) as [z |]; [| reflexivity].
  replace ((- 2 ^ (8 * Z.of_nat n - 1) <=? z) && (z <? 2 ^ (8 * Z.of_nat n - 1)))
    with false; [reflexivity |].
  symmetry. apply andb_false_iff.
  destruct Hv as [Hlow | Hhigh]; [left; apply Z.leb_gt | right; apply Z.ltb_ge]; lia.
Qed.

Lemma fixed_width_encode_error_witness :
  fixed_width Int16 = Some 2%nat /\
  encode Int16 (VInt 32768) = Raise (ValueError convert_error) /\
  encode Int16 VNone = Raise (ValueError convert_error).
Proof.
  split; [reflexivity | split].
  - apply (fixed_width_encode_error Int16 2 (VInt 32768) eq_refl).
    right. vm_compute. discriminate.
  - apply (fixed_width_encode_error Int16 2 VNone eq_refl). exact I.
Defined.

Lemma fixed_decode_short (t : AbstractType) (n : nat) (data : Cursor) :
  fixed_width t = Some n ->
  (List.length data < n)%nat ->
  decode t data = Raise (ValueError convert_error).
Proof.
  intros Ht Hshort.
  destruct (fixed_width_codec t n Ht) as (_ & _ & Hdec).
  rewrite Hdec. unfold int_value, rbind.
  rewrite read_nonneg by lia. rewrite Nat2Z.id.
  unfold _unpack, struct.unpack_int.
  rewrite length_firstn.
  replace (Nat.eqb (Nat.min n (List.length data)) n) with false
    by (symmetry; apply Nat.eqb_neq; lia).
  reflexivity.
Qed.

Lemma fixed_decode_full (t : AbstractType) (n : nat) (data : Cursor) :
  fixed_width t = Some n ->
  (n <= List.length data)%nat ->
  exists z,
    decode t data = Ok (VInt z, skipn n data) /\
    - 2 ^ (8 * Z.of_nat n - 1) <= z < 2 ^ (8 * Z.of_nat n - 1) /\
    encode t (VInt z) = Ok (firstn n data).
Proof.
  intros Ht Hlen.
  destruct (fixed_width_codec t n Ht) as (Hn & Henc & Hdec).
  destruct (half_double n Hn) as [Hpos Hdouble].
  assert (Hfl : List.length (firstn n data) = n) by (rewrite length_firstn; lia).
  pose proof (be_value_bound (firstn n data)) as Hb. rewrite Hfl in Hb.
  pose proof (be_bytes_be_value (firstn n data)) as Hbytes. rewrite Hfl in Hbytes.
  set (u := struct.be_value (firstn n data)) in *.
  set (half := 2 ^ (8 * Z.of_nat n - 1)) in *.
  exists (if u <? half then u else u - 2 * half).
  assert (Hrange : - half <= (if u <? half then u else u - 2 * half) < half)
    by (destruct (Z.ltb_spec u half); lia).
  split; [| split; [exact Hrange |]].
  - rewrite Hdec. unfold int_value, rbind.
    rewrite read_nonneg by lia. rewrite Nat2Z.id.
    unfold _unpack, struct.unpack_int. rewrite Hfl, Nat.eqb_refl.
    reflexivity.
  - rewrite Henc. unfold _pack, struct.pack_int. cbn [py_index]. fold half.
    replace ((- half <=? (if u <? half then u else u - 2 * half)) &&
             ((if u <? half then u else u - 2 * half) <? half)) with true
      by (symmetry; apply andb_true_iff; split;
          [apply Z.leb_le | apply Z.ltb_lt]; lia).
    cbn [except_struct_error]. f_equal.
    destruct (Z.ltb_spec u half); [exact Hbytes |].
    replace (u - 2 * half) with (u + (-1) * 2 ^ (8 * Z.of_nat n)) by lia.
    rewrite be_bytes_mod by lia. exact Hbytes.
Qed.

(** X7.  The decoder of a fixed-width codec raises the [ValueError] that
    wraps [struct.error] when fewer bytes than its width are left.
    Otherwise it always returns: it takes exactly its width in bytes, the
    value is in the codec's range, and encoding the value gives the bytes
    taken back. *)
Theorem fixed_width_decode :
  forall (t : AbstractType) (n : nat) (data : Cursor),
    fixed_width t = Some n ->
    ((List.length data < n)%nat ->
     decode t data = Raise (ValueError convert_error)) /\
    ((n <= List.length data)%nat ->
     exists z,
       decode t data = Ok (VInt z, skipn n data) /\
       - 2 ^ (8 * Z.of_nat n - 1) <= z < 2 ^ (8 * Z.of_nat n - 1) /\
       encode t (VInt z) = Ok (firstn n data)).
Proof.
  intros t n data Ht. split; intros Hlen.
  - apply (fixed_decode_short t n); assumption.
  - apply (fixed_decode_full t n); assumption.
Qed.

Lemma fixed_width_decode_witness :
  fixed_width Int16 = Some 2%nat /\
  (2 <= List.length (bytes_of [0xff; 0xfe; 0x07]%Z))%nat /\
  exists z,
    decode Int16 (bytes_of [0xff; 0xfe; 0x07]) =
    Ok (VInt z, skipn 2 (bytes_of [0xff; 0xfe; 0x07])) /\
    - 2 ^ (8 * Z.of_nat 2 - 1) <= z < 2 ^ (8 * Z.of_nat 2 - 1) /\
    encode Int16 (VInt z) = Ok (firstn 2 (bytes_of [0xff; 0xfe; 0x07])).
Proof.
  assert (H : (2 <= List.length (bytes_of [0xff; 0xfe; 0x07]%Z))%nat)
    by (vm_compute; lia).
  split; [reflexivity | split; [exact H |]].
  exact (proj2 (fixed_width_decode Int16 2 _ eq_refl) H).
Defined.

(** ** Null and negative lengths *)

(** X9.  The six nullable codecs write null as the length prefix -1 and
    nothing else (the bytes [ff ff], [ff ff ff ff], or the single varint
    byte [00] of the compact variants), and decode that prefix to null
    without touching what follows. *)
Theorem null_round_trip :
  forall (encoding : Encoding) (array_of : AbstractType) (rest : Cursor),
    (encode (String encoding) VNone = Ok (bytes_of [0xff; 0xff]) /\
     decode (String encoding) (bytes_of [0xff; 0xff] ++ rest) = Ok (VNone, rest)) /\
    (encode (CompactString encoding) VNone = Ok (bytes_of [0x00]) /\
     decode (CompactString encoding) (bytes_of [0x00] ++ rest) = Ok (VNone, rest)) /\
    (encode Bytes VNone = Ok (bytes_of [0xff; 0xff; 0xff; 0xff]) /\
     decode Bytes (bytes_of [0xff; 0xff; 0xff; 0xff] ++ rest) = Ok (VNone, rest)) /\
    (encode CompactBytes VNone = Ok (bytes_of [0x00]) /\
     decode CompactBytes (bytes_of [0x00] ++ rest) = Ok (VNone, rest)) /\
    (encode (Array array_of) VNone = Ok (bytes_of [0xff; 0xff; 0xff; 0xff]) /\
     decode (Array array_of) (bytes_of [0xff; 0xff; 0xff; 0xff] ++ rest) = Ok (VNone, rest)) /\
    (encode (CompactArray array_of) VNone = Ok (bytes_of [0x00]) /\
     decode (CompactArray array_of) (bytes_of [0x00] ++ rest) = Ok (VNone, rest)).
Proof.
  intros encoding array_of rest.
  repeat split; reflexivity.
Qed.

(** X10.  [String.decode] and [Bytes.decode] take every negative length
    prefix for null, not only -1: whatever negative value the prefix
    decodes to, they return null and leave the cursor behind the prefix. *)
Theorem negative_length_is_null :
  forall (cls : Class) (encoding : Encoding) (data rest : Cursor) (L : Z),
    len_decoder cls data = Ok (L, rest) ->
    L < 0 ->
    Bytes.decode cls data = Ok (VNone, rest) /\
    String.decode cls encoding data = Ok (VNone, rest).
Proof.
  intros cls encoding data rest L Hlen HL.
  assert (Hsign : (L <? 0) = true) by (apply Z.ltb_lt; lia).
  split.
  - unfold Bytes.decode, rbind. rewrite Hlen, Hsign. reflexivity.
  - unfold String.decode, rbind. rewrite Hlen, Hsign. reflexivity.
Qed.

Lemma negative_length_is_null_witness :
  len_decoder Bytes.cls (bytes_of [0xff; 0xff; 0xff; 0xfe; 0x61]) = Ok (-2, bytes_of [0x61]) /\
  -2 < 0 /\
  Bytes.decode Bytes.cls (bytes_of [0xff; 0xff; 0xff; 0xfe; 0x61]) = Ok (VNone, bytes_of [0x61]).
Proof.
  assert (H : len_decoder Bytes.cls (bytes_of [0xff; 0xff; 0xff; 0xfe; 0x61]) =
              Ok (-2, bytes_of [0x61])) by (vm_compute; reflexivity).
  split; [exact H | split; [lia |]].
  exact (proj1 (negative_length_is_null Bytes.cls codecs.utf_8 _ _ (-2) H ltac:(lia))).
Defined.

(** ** Truncated compact prefixes *)

Lemma len_decoder_truncated (data : Cursor) :
  Forall is_continuation data ->
  (List.length data <= 4)%nat ->
  VarInt.len_decoder data = Ok (groups_value 0 data - 1, []).
Proof.
  intros Hc Hlen. unfold VarInt.len_decoder, rbind.
  rewrite read_truncated by assumption. reflexivity.
Qed.

(** X11.  A buffer that ends inside the varint length prefix is not an
    error for the compact decoders: the prefix reads as the groups seen so
    far.  [CompactBytes.decode] then returns null when they are 0, the empty
    blob when they are 1, and raises buffer underrun otherwise.  On the
    empty buffer all three compact decoders return null and
    [TaggedField.decode] the tag 0 with a null value, where the classic
    decoders raise [ValueError]. *)
Theorem truncated_compact_prefix :
  (forall data : Cursor,
      Forall is_continuation data ->
      (List.length data <= 4)%nat ->
      decode CompactBytes data =
      if groups_value 0 data =? 0 then Ok (VNone, [])
      else if groups_value 0 data =? 1 then Ok (VBytes [], [])
      else Raise (ValueError "Buffer underrun decoding Bytes")) /\
  (forall (encoding : Encoding) (array_of : AbstractType),
      decode (CompactString encoding) [] = Ok (VNone, []) /\
      decode CompactBytes [] = Ok (VNone, []) /\
      decode (CompactArray array_of) [] = Ok (VNone, []) /\
      decode TaggedField [] = Ok (VTuple [VInt 0; VNone], []) /\
      decode (String encoding) [] = Raise (ValueError convert_error) /\
      decode Bytes [] = Raise (ValueError convert_error) /\
      decode (Array array_of) [] = Raise (ValueError convert_error)).
Proof.
  split.
  - intros data Hc Hlen.
    pose proof (groups_value_bound data 0 ltac:(lia)) as [Hg _].
    cbn [decode]. unfold Bytes.decode, rbind. cbn [len_decoder CompactBytes.cls].
    rewrite len_decoder_truncated by assumption.
    destruct (Z.eqb_spec (groups_value 0 data) 0) as [H0 | H0].
    + rewrite H0. reflexivity.
    + replace (groups_value 0 data - 1 <? 0) with false
        by (symmetry; apply Z.ltb_ge; lia).
      rewrite read_nonneg by lia. cbn [firstn skipn List.length].
      destruct (Z.to_nat (groups_value 0 data - 1)); cbn [firstn skipn List.length];
        destruct (Z.eqb_spec (groups_value 0 data) 1) as [H1 | H1];
        destruct (Z.eqb_spec (Z.of_nat 0) (groups_value 0 data - 1)) as [H2 | H2];
        try lia; reflexivity.
  - intros encoding array_of. repeat split; reflexivity.
Qed.

Lemma truncated_compact_prefix_witness :
  Forall is_continuation (bytes_of [0x81]) /\
  (List.length (bytes_of [0x81]%Z) <= 4)%nat /\
  decode CompactBytes (bytes_of [0x81]) = Ok (VBytes [], []).
Proof.
  assert (Hc : Forall is_continuation (bytes_of [0x81])).
  { repeat constructor; unfold is_continuation; vm_compute; discriminate. }
  assert (Hl : (List.length (bytes_of [0x81]%Z) <= 4)%nat) by (vm_compute; lia).
  split; [exact Hc | split; [exact Hl |]].
  exact (proj1 truncated_compact_prefix _ Hc Hl).
Defined.

(** ** The round-trip law *)

(** A length [n] that the prefix of a class writes and reads back. *)
Lemma classic16_prefix (n : Z) :
  - 2 ^ 15 <= n < 2 ^ 15 ->
  exists p,
    len_encoder String.cls n = Ok p /\
    forall rest, len_decoder String.cls (p ++ rest) = Ok (n, rest).
Proof.
  intros Hn. exists (struct.be_bytes 2 n). split.
  - apply (int16_round_trip n []). exact Hn.
  - intros rest. apply (int16_round_trip n rest). exact Hn.
Qed.

Lemma classic32_prefix (n : Z) :
  - 2 ^ 31 <= n < 2 ^ 31 ->
  exists p,
    len_encoder Bytes.cls n = Ok p /\
    forall rest, len_decoder Bytes.cls (p ++ rest) = Ok (n, rest).
Proof.
  intros Hn. exists (struct.be_bytes 4 n). split.
  - apply (int32_round_trip n []). exact Hn.
  - intros rest. apply (int32_round_trip n rest). exact Hn.
Qed.

Lemma compact_prefix (n : Z) :
  -1 <= n < 2 ^ 32 - 1 ->
  exists p,
    VarInt.len_encoder n = Ok p /\
    forall rest, VarInt.len_decoder (p ++ rest) = Ok (n, rest).
Proof.
  intros Hn.
  destruct (unsigned_varint_round_trip (n + 1) ltac:(lia)) as (p & Hw & _ & Hr).
  exists p. split; [exact Hw |].
  intros rest. unfold VarInt.len_decoder, rbind. rewrite Hr. unfold ret.
  do 2 f_equal. lia.
Qed.

Section prefixed.
Variable cls : Class.
Variable n : Z.
Variable p : list byte.
Hypothesis Hwrite : len_encoder cls n = Ok p.
Hypothesis Hread : forall rest, len_decoder cls (p ++ rest) = Ok (n, rest).

Lemma bytes_prefixed (b : list byte) :
  n = Z.of_nat (List.length b) ->
  Bytes.encode cls (VBytes b) = Ok (p ++ b) /\
  forall rest, Bytes.decode cls ((p ++ b) ++ rest) = Ok (VBytes b, rest).
Proof.
  intros Hn. split.
  - unfold Bytes.encode. cbn [py_len bind]. rewrite <- Hn, Hwrite. reflexivity.
  - intros rest. unfold Bytes.decode, rbind. rewrite <- app_assoc, Hread.
    replace (n <? 0) with false by (symmetry; apply Z.ltb_ge; lia).
    rewrite read_exact by lia. rewrite <- Hn, Z.eqb_refl. reflexivity.
Qed.

Lemma string_prefixed (encoding : Encoding) (s : text) (b : list byte) :
  str_encode encoding s = Ok b ->
  bytes_decode encoding b = Ok s ->
  n = Z.of_nat (List.length b) ->
  String.encode cls encoding (VStr s) = Ok (p ++ b) /\
  forall rest, String.decode cls encoding ((p ++ b) ++ rest) = Ok (VStr s, rest).
Proof.
  intros Henc Hdec Hn. split.
  - unfold String.encode. cbn [py_str bind]. rewrite Henc. cbn [bind].
    rewrite <- Hn, Hwrite. reflexivity.
  - intros rest. unfold String.decode, rbind. rewrite <- app_assoc, Hread.
    replace (n <? 0) with false by (symmetry; apply Z.ltb_ge; lia).
    rewrite read_exact by lia. rewrite <- Hn, Z.eqb_refl. cbn [negb].
    rewrite Hdec. reflexivity.
Qed.

Lemma array_prefixed (array_of : AbstractType) (items : list value) :
  Forall (round_trips array_of) items ->
  n = Z.of_nat (List.length items) ->
  exists out,
    Array.encode (fun item => encode array_of item) cls (VList items) = Ok out /\
    forall rest,
      Array.decode (decode array_of) cls (out ++ rest) = Ok (VList items, rest).
Proof.
  intros Hall Hn.
  destruct (items_round_trip array_of items Hall) as (parts & Hp & Hr).
  exists (List.concat (p :: parts)). split.
  - unfold Array.encode. cbn [py_len py_items bind]. rewrite <- Hn, Hwrite.
    cbn [bind]. rewrite Hp. reflexivity.
  - intros rest. unfold Array.decode, rbind. cbn [List.concat].
    rewrite <- app_assoc, Hread.
    replace (n =? -1) with false by (symmetry; apply Z.eqb_neq; lia).
    rewrite Hn, Nat2Z.id, Hr. reflexivity.
Qed.
End prefixed.

Lemma fixed_width_round_trip_all (t : AbstractType) (n : nat) (z : Z) :
  fixed_width t = Some n ->
  - 2 ^ (8 * Z.of_nat n - 1) <= z < 2 ^ (8 * Z.of_nat n - 1) ->
  exists out,
    encode t (VInt z) = Ok out /\
    forall rest, decode t (out ++ rest) = Ok (VInt z, rest).
Proof.
  intros Ht Hz.
  destruct (fixed_width_codec t n Ht) as (Hn & Henc & Hdec).
  exists (struct.be_bytes n z). split.
  - rewrite Henc. apply (fixed_int_round_trip n z [] Hn Hz).
  - intros rest. rewrite Hdec. unfold int_value. unfold rbind at 1.
    rewrite (proj2 (fixed_int_round_trip n z rest Hn Hz)). reflexivity.
Qed.

Lemma round_trips_fields (fields : list (string * AbstractType)) :
  Forall (fun field => forall v, domain (snd field) v -> round_trips (snd field) v) fields ->
  forall items,
    Forall2 (fun field x => domain (snd field) x) fields items ->
    Forall2 (fun field x => round_trips (snd field) x) fields items.
Proof.
  induction 1 as [| field fields Hf _ IH]; intros items Hd;
    inversion Hd; subst; constructor; auto.
Qed.

(** X12.  The round-trip law, for every codec built from the fixed-width
    integers, Boolean, the strings and blobs, [Schema] and the arrays, at any
    depth of nesting: for every value in the domain of the codec, [encode]
    returns, and [decode] reads the same value back from the bytes and leaves
    the cursor at what follows them. *)
Theorem round_trip_law :
  forall (t : AbstractType) (v : value), domain t v -> round_trips t v.
Proof.
  intros t. induction t using AbstractType_induction; intros v Hd;
    inversion Hd; subst; clear Hd;
    try (exists (bytes_of [0xff; 0xff]); split; [reflexivity | intros rest; reflexivity]);
    try (exists (bytes_of [0x00]); split; [reflexivity | intros rest; reflexivity]);
    try (exists (bytes_of [0xff; 0xff; 0xff; 0xff]);
         split; [reflexivity | intros rest; reflexivity]).
  - match goal with
    | H : _ <= z < _ |- _ => exact (fixed_width_round_trip_all Int8 1 z eq_refl H)
    end.
  - match goal with
    | H : _ <= z < _ |- _ => exact (fixed_width_round_trip_all Int16 2 z eq_refl H)
    end.
  - match goal with
    | H : _ <= z < _ |- _ => exact (fixed_width_round_trip_all Int32 4 z eq_refl H)
    end.
  - match goal with
    | H : _ <= z < _ |- _ => exact (fixed_width_round_trip_all Int64 8 z eq_refl H)
    end.
  - exists [byte.of_Z (if b then 1 else 0)]. split; [reflexivity |].
    intros rest. destruct b; reflexivity.
  - apply round_trips_String. assumption.
  - match goal with
    | H : transcodes _ _ _ |- _ => destruct H as (b & Henc & Hdec & Hlen)
    end.
    destruct (compact_prefix (Z.of_nat (List.length b)) ltac:(lia)) as (p & Hw & Hr).
    exists (p ++ b).
    exact (string_prefixed CompactString.cls _ p Hw Hr encoding s b Henc Hdec eq_refl).
  - destruct (classic32_prefix (Z.of_nat (List.length b)) ltac:(lia)) as (p & Hw & Hr).
    exists (p ++ b).
    exact (bytes_prefixed Bytes.cls _ p Hw Hr b eq_refl).
  - destruct (compact_prefix (Z.of_nat (List.length b)) ltac:(lia)) as (p & Hw & Hr).
    exists (p ++ b).
    exact (bytes_prefixed CompactBytes.cls _ p Hw Hr b eq_refl).
  - apply round_trips_Schema. apply round_trips_fields; assumption.
  - apply round_trips_Array; [| assumption].
    eapply Forall_impl; [| eassumption]. auto.
  - destruct (compact_prefix (Z.of_nat (List.length items)) ltac:(lia)) as (p & Hw & Hr).
    apply (array_prefixed CompactArray.cls _ p Hw Hr t items); [| reflexivity].
    eapply Forall_impl; [| eassumption]. auto.
Qed.

Lemma round_trip_law_witness :
  domain (CompactArray (Schema [("id"%string, Int16);
                                ("blob"%string, Bytes);
                                ("flags"%string, Array Boolean)]))
         (VList [VTuple [VInt (-5); VBytes (bytes_of [0x01]); VList [VBool true]];
                 VTuple [VInt 7; VNone; VNone]]) /\
  round_trips (CompactArray (Schema [("id"%string, Int16);
                                     ("blob"%string, Bytes);
                                     ("flags"%string, Array Boolean)]))
              (VList [VTuple [VInt (-5); VBytes (bytes_of [0x01]); VList [VBool true]];
                      VTuple [VInt 7; VNone; VNone]]).
Proof.
  assert (H : domain (CompactArray (Schema [("id"%string, Int16);
                                            ("blob"%string, Bytes);
                                            ("flags"%string, Array Boolean)]))
                     (VList [VTuple [VInt (-5); VBytes (bytes_of [0x01]); VList [VBool true]];
                             VTuple [VInt 7; VNone; VNone]])).
  { apply domain_CompactArray; [| vm_compute; reflexivity].
    repeat constructor; cbn [snd]; try lia; vm_compute; reflexivity. }
  split; [exact H |].
  exact (round_trip_law _ _ H).
Defined.

(** ** Schema *)

(** X13.  [Schema.encode] checks the number of values before it encodes
    any: for an item whose length differs from the number of fields it
    raises [ValueError], whatever the fields and the values are. *)
Theorem schema_arity_mismatch :
  forall (fields : list (string * AbstractType)) (item : value) (n : Z),
    py_len item = Ok n ->
    n <> Z.of_nat (List.length fields) ->
    encode (Schema fields) item =
    Raise (ValueError "Item field count does not match Schema").
Proof.
  intros fields item n Hlen Hn.
  cbn [encode]. unfold Schema.encode. rewrite Hlen. cbn [bind].
  replace (n =? Z.of_nat (List.length fields)) with false
    by (symmetry; apply Z.eqb_neq; exact Hn).
  reflexivity.
Qed.

Lemma schema_arity_mismatch_witness :
  py_len (VTuple [VInt 1; VInt 2]) = Ok 2 /\
  2 <> Z.of_nat (List.length [("a"%string, Int8); ("b"%string, Int8); ("c"%string, Int8)]) /\
  encode (Schema [("a"%string, Int8); ("b"%string, Int8); ("c"%string, Int8)])
    (VTuple [VInt 1; VInt 2]) =
  Raise (ValueError "Item field count does not match Schema").
Proof.
  assert (H : 2 <> Z.of_nat (List.length [("a"%string, Int8); ("b"%string, Int8);
                                             ("c"%string, Int8)]))
    by (vm_compute; discriminate).
  split; [reflexivity | split; [exact H |]].
  exact (schema_arity_mismatch _ (VTuple [VInt 1; VInt 2]) 2 eq_refl H).
Defined.

Lemma encode_fields_app (fs1 fs2 : list (string * AbstractType)) :
  forall xs1 xs2 : list value,
    List.length xs1 = List.length fs1 ->
    Schema.encode_fields (fun field x => encode field x) (fs1 ++ fs2) (xs1 ++ xs2) =
    (a <- Schema.encode_fields (fun field x => encode field x) fs1 xs1 ;;
     b <- Schema.encode_fields (fun field x => encode field x) fs2 xs2 ;;
     Ok (a ++ b))%result.
Proof.
  induction fs1 as [| [name field] fs1 IH]; intros xs1 xs2 Hlen.
  - destruct xs1; [| discriminate]. cbn [app Schema.encode_fields bind].
    destruct (Schema.encode_fields _ fs2 xs2); reflexivity.
  - destruct xs1 as [| x xs1]; [discriminate |].
    cbn [app Schema.encode_fields]. rewrite IH by (cbn in Hlen; lia).
    destruct (encode field x); [| reflexivity | reflexivity]. cbn [bind].
    destruct (Schema.encode_fields _ fs1 xs1); [| reflexivity | reflexivity].
    cbn [bind].
    destruct (Schema.encode_fields _ fs2 xs2); reflexivity.
Qed.

(** X14.  Schemas compose by concatenation: the encoding of a tuple under
    the fields [fs1] followed by [fs2] is the encoding of its first part
    under [fs1] followed by that of the rest under [fs2], and the first error
    in field order is the one raised. *)
Theorem schema_encode_app :
  forall (fs1 fs2 : list (string * AbstractType)) (xs1 xs2 : list value),
    List.length xs1 = List.length fs1 ->
    List.length xs2 = List.length fs2 ->
    encode (Schema (fs1 ++ fs2)) (VTuple (xs1 ++ xs2)) =
    (a <- encode (Schema fs1) (VTuple xs1) ;;
     b <- encode (Schema fs2) (VTuple xs2) ;;
     Ok (a ++ b))%result.
Proof.
  intros fs1 fs2 xs1 xs2 H1 H2.
  cbn [encode]. unfold Schema.encode. cbn [py_len py_items bind].
  rewrite !length_app, H1, H2, Nat2Z.inj_add, !Z.eqb_refl. cbn [negb].
  rewrite encode_fields_app by assumption.
  destruct (Schema.encode_fields _ fs1 xs1); [| reflexivity | reflexivity].
  cbn [bind].
  destruct (Schema.encode_fields _ fs2 xs2); [| reflexivity | reflexivity].
  cbn [bind]. rewrite concat_app. reflexivity.
Qed.

Lemma schema_encode_app_witness :
  List.length [VInt 1] = List.length [("a"%string, Int8)] /\
  List.length [VBool true] = List.length [("b"%string, Boolean)] /\
  encode (Schema ([("a"%string, Int8)] ++ [("b"%string, Boolean)]))
    (VTuple ([VInt 1] ++ [VBool true])) = Ok (bytes_of [0x01; 0x01]).
Proof.
  split; [reflexivity | split; [reflexivity |]].
  rewrite (schema_encode_app [("a"%string, Int8)] [("b"%string, Boolean)]
             [VInt 1] [VBool true] eq_refl eq_refl).
  reflexivity.
Defined.

Lemma decode_fields_app (fs1 fs2 : list (string * AbstractType)) :
  forall data : Cursor,
    Schema.decode_fields (fun field => decode field) (fs1 ++ fs2) data =
    (xs1 <- Schema.decode_fields (fun field => decode field) fs1 ;;
     xs2 <- Schema.decode_fields (fun field => decode field) fs2 ;;
     ret (xs1 ++ xs2))%reader data.
Proof.
  induction fs1 as [| [name field] fs1 IH]; intros data.
  - cbn [app Schema.decode_fields]. unfold rbind, ret.
    destruct (Schema.decode_fields _ fs2 data) as [[xs d] | |]; reflexivity.
  - cbn [app Schema.decode_fields]. unfold rbind at 1 3 4.
    destruct (decode field data) as [[x d] | |]; [| reflexivity | reflexivity].
    unfold rbind at 1. rewrite IH. unfold rbind, ret.
    destruct (Schema.decode_fields _ fs1 d) as [[xs1 d1] | |]; [| reflexivity | reflexivity].
    destruct (Schema.decode_fields _ fs2 d1) as [[xs2 d2] | |]; reflexivity.
Qed.

Lemma decode_fields_length (fields : list (string * AbstractType)) :
  forall (data rest : Cursor) (xs : list value),
    Schema.decode_fields (fun field => decode field) fields data = Ok (xs, rest) ->
    List.length xs = List.length fields.
Proof.
  induction fields as [| [name field] fields IH]; intros data rest xs.
  - cbn [Schema.decode_fields]. unfold ret. intros [= <- _]. reflexivity.
  - cbn [Schema.decode_fields]. unfold rbind.
    destruct (decode field data) as [[x d] | |]; try discriminate.
    destruct (Schema.decode_fields _ fields d) as [[xs' d'] | |] eqn:Hd; try discriminate.
    unfold ret. intros [= <- _]. cbn [List.length]. f_equal. eapply IH. exact Hd.
Qed.

(** X15.  [Schema.decode] returns a tuple with one value per field, and
    schemas compose by sequencing: decoding under [fs1] followed by [fs2] is
    decoding under [fs1], then under [fs2] from where that stopped, and
    joining the two tuples; an error of either part is the error of the
    whole. *)
Theorem schema_decode_app :
  (forall (fields : list (string * AbstractType)) (data rest : Cursor) (v : value),
      decode (Schema fields) data = Ok (v, rest) ->
      exists items, v = VTuple items /\ List.length items = List.length fields) /\
  (forall (fs1 fs2 : list (string * AbstractType)) (data : Cursor),
      decode (Schema (fs1 ++ fs2)) data =
      match decode (Schema fs1) data with
      | Ok (VTuple xs1, d1) =>
          match decode (Schema fs2) d1 with
          | Ok (VTuple xs2, rest) => Ok (VTuple (xs1 ++ xs2), rest)
          | other => other
          end
      | other => other
      end).
Proof.
  split.
  - intros fields data rest v. cbn [decode]. unfold Schema.decode, rbind.
    destruct (Schema.decode_fields _ fields data) as [[xs d] | |] eqn:Hd; try discriminate.
    unfold ret. intros [= <- _]. exists xs. split; [reflexivity |].
    eapply decode_fields_length. exact Hd.
  - intros fs1 fs2 data. cbn [decode]. unfold Schema.decode.
    unfold rbind at 1. rewrite decode_fields_app. unfold rbind, ret.
    destruct (Schema.decode_fields _ fs1 data) as [[xs1 d1] | |]; [| reflexivity | reflexivity].
    destruct (Schema.decode_fields _ fs2 d1) as [[xs2 d2] | |]; reflexivity.
Qed.

Lemma schema_decode_app_witness :
  decode (Schema [("a"%string, Int8); ("b"%string, Boolean)]) (bytes_of [0x05; 0x01; 0x09]) =
  Ok (VTuple [VInt 5; VBool true], bytes_of [0x09]) /\
  exists items,
    VTuple [VInt 5; VBool true] = VTuple items /\
    List.length items = List.length [("a"%string, Int8); ("b"%string, Boolean)].
Proof.
  assert (H : decode (Schema [("a"%string, Int8); ("b"%string, Boolean)])
                (bytes_of [0x05; 0x01; 0x09]) =
              Ok (VTuple [VInt 5; VBool true], bytes_of [0x09])) by (vm_compute; reflexivity).
  split; [exact H |].
  exact (proj1 schema_decode_app _ _ _ _ H).
Defined.

(** ** Array *)

Lemma decode_items_length (array_of : AbstractType) (n : nat) :
  forall (data rest : Cursor) (xs : list value),
    Array.decode_items (decode array_of) n data = Ok (xs, rest) ->
    List.length xs = n.
Proof.
  induction n as [| n IH]; intros data rest xs.
  - cbn [Array.decode_items]. unfold ret. intros [= <- _]. reflexivity.
  - cbn [Array.decode_items]. unfold rbind.
    destruct (decode array_of data) as [[x d] | |]; try discriminate.
    destruct (Array.decode_items _ n d) as [[xs' d'] | |] eqn:Hd; try discriminate.
    unfold ret. intros [= <- _]. cbn [List.length]. f_equal. eapply IH. exact Hd.
Qed.

(** X16.  What [Array.decode] returns, for the classic and the compact
    class alike: null when the length prefix is -1, and otherwise a list of
    exactly as many elements as the prefix says (none for a negative
    prefix); it never returns a shorter list. *)
Theorem array_decode_count :
  forall (cls : Class) (array_of : AbstractType) (data rest : Cursor) (v : value),
    Array.decode (decode array_of) cls data = Ok (v, rest) ->
    exists L d1,
      len_decoder cls data = Ok (L, d1) /\
      ((L = -1 /\ v = VNone /\ rest = d1) \/
       (L <> -1 /\ exists items, v = VList items /\ List.length items = Z.to_nat L)).
Proof.
  intros cls array_of data rest v. unfold Array.decode, rbind.
  destruct (len_decoder cls data) as [[L d1] | |]; try discriminate.
  intros H. exists L, d1. split; [reflexivity |].
  destruct (Z.eqb_spec L (-1)) as [-> | HL].
  - left. unfold ret in H. injection H as <- <-. repeat split.
  - right. split; [exact HL |].
    destruct (Array.decode_items _ (Z.to_nat L) d1) as [[xs d] | |] eqn:Hd; try discriminate.
    unfold ret in H. injection H as <- <-. exists xs. split; [reflexivity |].
    eapply decode_items_length. exact Hd.
Qed.

Lemma array_decode_count_witness :
  Array.decode (decode Int8) CompactArray.cls (bytes_of [0x03; 0x01; 0x02; 0x09]) =
  Ok (VList [VInt 1; VInt 2], bytes_of [0x09]) /\
  exists L d1,
    len_decoder CompactArray.cls (bytes_of [0x03; 0x01; 0x02; 0x09]) = Ok (L, d1) /\
    ((L = -1 /\ VList [VInt 1; VInt 2] = VNone /\ bytes_of [0x09] = d1) \/
     (L <> -1 /\
      exists items, VList [VInt 1; VInt 2] = VList items /\ List.length items = Z.to_nat L)).
Proof.
  assert (H : Array.decode (decode Int8) CompactArray.cls (bytes_of [0x03; 0x01; 0x02; 0x09]) =
              Ok (VList [VInt 1; VInt 2], bytes_of [0x09])) by (vm_compute; reflexivity).
  split; [exact H |].
  exact (array_decode_count _ _ _ _ _ H).
Defined.

Lemma decode_items_short (t : AbstractType) (n : nat) :
  fixed_width t = Some n ->
  forall (k : nat) (data : Cursor),
    (List.length data < n * k)%nat ->
    Array.decode_items (decode t) k data = Raise (ValueError convert_error).
Proof.
  intros Ht. induction k as [| k IH]; intros data Hlen; [lia |].
  cbn [Array.decode_items]. unfold rbind.
  destruct (Nat.lt_ge_cases (List.length data) n) as [Hshort | Hfull].
  - rewrite (fixed_decode_short t n data Ht Hshort). reflexivity.
  - destruct (fixed_decode_full t n data Ht Hfull) as (z & Hd & _).
    rewrite Hd. rewrite IH; [reflexivity |].
    rewrite length_skipn. nia.
Qed.

(** X17.  An array of fixed-width elements whose length prefix announces
    more elements than the rest of the buffer holds is not decoded in part:
    [Array.decode] raises the [ValueError] of the first element that is cut
    short. *)
Theorem array_decode_short :
  forall (cls : Class) (t : AbstractType) (n : nat) (data d1 : Cursor) (L : Z),
    fixed_width t = Some n ->
    len_decoder cls data = Ok (L, d1) ->
    0 <= L ->
    Z.of_nat (List.length d1) < Z.of_nat n * L ->
    Array.decode (decode t) cls data = Raise (ValueError convert_error).
Proof.
  intros cls t n data d1 L Ht Hlen HL Hshort.
  unfold Array.decode, rbind. rewrite Hlen.
  replace (L =? -1) with false by (symmetry; apply Z.eqb_neq; lia).
  rewrite (decode_items_short t n Ht); [reflexivity |].
  apply Nat2Z.inj_lt. rewrite Nat2Z.inj_mul, Z2Nat.id by lia. exact Hshort.
Qed.

Lemma array_decode_short_witness :
  fixed_width Int32 = Some 4%nat /\
  len_decoder Array.cls (bytes_of [0; 0; 0; 2; 0; 0; 0; 1; 0; 0]) =
  Ok (2, bytes_of [0; 0; 0; 1; 0; 0]) /\
  Array.decode (decode Int32) Array.cls (bytes_of [0; 0; 0; 2; 0; 0; 0; 1; 0; 0]) =
  Raise (ValueError convert_error).
Proof.
  assert (H : len_decoder Array.cls (bytes_of [0; 0; 0; 2; 0; 0; 0; 1; 0; 0]) =
              Ok (2, bytes_of [0; 0; 0; 1; 0; 0])) by (vm_compute; reflexivity).
  split; [reflexivity | split; [exact H |]].
  apply (array_decode_short Array.cls Int32 4 _ _ 2 eq_refl H); vm_compute; congruence.
Defined.

Lemma encode_items_parts (array_of : AbstractType) (items : list value) :
  forall parts : list (list byte),
    Forall2 (fun item part => encode array_of item = Ok part) items parts ->
    Array.encode_items (fun item => encode array_of item) items = Ok parts.
Proof.
  induction 1 as [| item part items parts He _ IH]; [reflexivity |].
  cbn [Array.encode_items]. rewrite He. cbn [bind]. rewrite IH. reflexivity.
Qed.

(** X18.  What [Array.encode] writes for a sequence whose elements all
    encode: the length prefix of the number of elements, then the elements'
    encodings in order, and nothing else.  A tuple is written as the list of
    the same elements is. *)
Theorem array_encode_concat :
  forall (cls : Class) (array_of : AbstractType) (items : list value)
         (parts : list (list byte)),
    Forall2 (fun item part => encode array_of item = Ok part) items parts ->
    Array.encode (fun item => encode array_of item) cls (VList items) =
    (p <- len_encoder cls (Z.of_nat (List.length items)) ;;
     Ok (p ++ List.concat parts))%result /\
    Array.encode (fun item => encode array_of item) cls (VTuple items) =
    Array.encode (fun item => encode array_of item) cls (VList items).
Proof.
  intros cls array_of items parts Hall. split; [| reflexivity].
  unfold Array.encode. cbn [py_len py_items bind].
  destruct (len_encoder cls (Z.of_nat (List.length items))); [| reflexivity | reflexivity].
  cbn [bind]. rewrite (encode_items_parts _ _ _ Hall). reflexivity.
Qed.

Lemma array_encode_concat_witness :
  Forall2 (fun item part => encode Int8 item = Ok part)
          [VInt 1; VInt 2] [bytes_of [0x01]; bytes_of [0x02]] /\
  Array.encode (fun item => encode Int8 item) Array.cls (VList [VInt 1; VInt 2]) =
  Ok (bytes_of [0; 0; 0; 2; 0x01; 0x02]).
Proof.
  assert (H : Forall2 (fun item part => encode Int8 item = Ok part)
                      [VInt 1; VInt 2] [bytes_of [0x01]; bytes_of [0x02]])
    by (repeat constructor).
  split; [exact H |].
  rewrite (proj1 (array_encode_concat Array.cls Int8 _ _ H)). reflexivity.
Defined.

(** ** TaggedField *)

Lemma firstn_removelast {A : Type} (l l' : list A) :
  l <> [] ->
  firstn (List.length l - 1) (l ++ l') = removelast l /\
  skipn (List.length l - 1) (l ++ l') = skipn (List.length l - 1) l ++ l'.
Proof.
  intros Hl.
  destruct (exists_last Hl) as (front & x & ->).
  rewrite removelast_last, length_app. cbn [List.length].
  replace (List.length front + 1 - 1)%nat with (List.length front) by lia.
  rewrite <- !app_assoc.
  rewrite firstn_exact, !skipn_exact. split; reflexivity.
Qed.

(** X19.  [TaggedField.encode] followed by [TaggedField.decode] does not
    give the pair back.  For a tag of 32 bits and a value that is not empty,
    decoding what [encode] returns gives the value without its last byte and
    leaves that byte in the buffer; for the empty value it gives null. *)
Theorem tagged_field_encode_decode :
  forall (tag : Z) (val : list byte) (rest : Cursor),
    0 <= tag < 2 ^ 32 ->
    Z.of_nat (List.length val) < 2 ^ 32 - 1 ->
    exists out,
      encode TaggedField (VTuple [VInt tag; VBytes val]) = Ok out /\
      decode TaggedField (out ++ rest) =
      match val with
      | [] => Ok (VTuple [VInt tag; VNone], rest)
      | _ :: _ =>
          Ok (VTuple [VInt tag; VBytes (removelast val)],
              skipn (List.length val - 1) val ++ rest)
      end.
Proof.
  intros tag val rest Htag Hval.
  destruct (unsigned_varint_round_trip tag Htag) as (t & Hw & _ & Hr).
  destruct (compact_prefix (Z.of_nat (List.length val)) ltac:(lia)) as (l & Hl & Hlr).
  exists ((t ++ l) ++ val). split.
  - cbn [encode]. unfold TaggedField.encode.
    cbn [TaggedField.unpack_pair py_items bind py_index py_len].
    rewrite Hw. cbn [bind]. rewrite Hl. reflexivity.
  - cbn [decode].
    rewrite (tagged_field_decode_steps _ (l ++ val ++ rest) (val ++ rest) tag
               (Z.of_nat (List.length val))).
    + destruct val as [| x val']; [reflexivity |].
      set (val := x :: val') in *.
      replace (0 <? Z.of_nat (List.length val)) with true
        by (symmetry; apply Z.ltb_lt; subst val; cbn [List.length]; lia).
      replace (Z.to_nat (Z.of_nat (List.length val) - 1)) with (List.length val - 1)%nat
        by lia.
      destruct (firstn_removelast val rest ltac:(subst val; discriminate)) as [Hf Hs].
      rewrite Hf, Hs.
      replace (Z.of_nat (List.length (removelast val)) =? Z.of_nat (List.length val) - 1)
        with true; [reflexivity |].
      symmetry. apply Z.eqb_eq.
      rewrite <- Hf, length_firstn, length_app. subst val. cbn [List.length]. lia.
    + rewrite <- !app_assoc. apply Hr.
    + apply Hlr.
Qed.

Lemma tagged_field_encode_decode_witness :
  0 <= 5 < 2 ^ 32 /\
  Z.of_nat (List.length (bytes_of [0x61; 0x62; 0x63])) < 2 ^ 32 - 1 /\
  exists out,
    encode TaggedField (VTuple [VInt 5; VBytes (bytes_of [0x61; 0x62; 0x63])]) = Ok out /\
    decode TaggedField (out ++ []) =
    Ok (VTuple [VInt 5; VBytes (bytes_of [0x61; 0x62])], bytes_of [0x63]).
Proof.
  assert (H1 : 0 <= 5 < 2 ^ 32) by lia.
  assert (H2 : Z.of_nat (List.length (bytes_of [0x61; 0x62; 0x63])) < 2 ^ 32 - 1)
    by (vm_compute; reflexivity).
  split; [exact H1 | split; [exact H2 |]].
  exact (tagged_field_encode_decode 5 (bytes_of [0x61; 0x62; 0x63]) [] H1 H2).
Defined.

(** ** Limits of the length prefixes *)

(** X21.  The logical length that [VarInt.len_decoder] returns is never
    below -1, so a compact decoder cannot meet the other negative lengths
    of the classic ones, and it can be as large as [2^35 - 2]: the compact
    prefix is not limited to 32 bits on reading. *)
Theorem compact_length_range :
  (forall (data rest : Cursor) (L : Z),
      VarInt.len_decoder data = Ok (L, rest) -> -1 <= L <= 2 ^ 35 - 2) /\
  VarInt.len_decoder (bytes_of [0xff; 0xff; 0xff; 0xff; 0x7f]) = Ok (2 ^ 35 - 2, []).
Proof.
  split; [| vm_compute; reflexivity].
  intros data rest L. unfold VarInt.len_decoder, rbind.
  destruct (VarInt.read_unsigned_varint data) as [[v d] | |] eqn:Hr; try discriminate.
  unfold ret. intros [= <- _].
  destruct (read_returns _ _ _ Hr) as [Hv _]. lia.
Qed.

Lemma compact_length_range_witness :
  VarInt.len_decoder (bytes_of [0x00; 0x07]) = Ok (-1, bytes_of [0x07]) /\
  -1 <= -1 <= 2 ^ 35 - 2.
Proof.
  assert (H : VarInt.len_decoder (bytes_of [0x00; 0x07]) = Ok (-1, bytes_of [0x07]))
    by (vm_compute; reflexivity).
  split; [exact H |].
  exact (proj1 compact_length_range _ _ _ H).
Defined.

(** X22.  A string whose encoded form is longer than 32767 bytes is not
    truncated: the [Int16] prefix cannot hold its length, and
    [String.encode] raises [ValueError] without returning any byte. *)
Theorem string_too_long :
  forall (encoding : Encoding) (s : text) (b : list byte),
    str_encode encoding s = Ok b ->
    2 ^ 15 <= Z.of_nat (List.length b) ->
    encode (String encoding) (VStr s) = Raise (ValueError convert_error).
Proof.
  intros encoding s b Henc Hlen.
  cbn [encode]. unfold String.encode. cbn [py_str bind]. rewrite Henc.
  cbn [bind len_encoder String.cls].
  unfold Int16.encode, _pack, struct.pack_int. cbn [py_index].
  change (2 ^ (8 * Z.of_nat 2 - 1)) with (2 ^ 15).
  replace ((- 2 ^ 15 <=? Z.of_nat (List.length b)) && (Z.of_nat (List.length b) <? 2 ^ 15))
    with false; [reflexivity |].
  symmetry. apply andb_false_iff. right. apply Z.ltb_ge. exact Hlen.
Qed.

Lemma ascii_repeat (n : nat) :
  str_encode codecs.ascii (repeat 0x61 n) = Ok (repeat (byte.of_Z 0x61) n).
Proof.
  cbn [str_encode codecs.ascii].
  replace (forallb (fun c => (0 <=? c) && (c <? 128)) (repeat 0x61 n)) with true.
  - rewrite map_repeat. reflexivity.
  - symmetry. apply forallb_forall. intros c Hc.
    apply repeat_spec in Hc. subst c. reflexivity.
Qed.

Lemma string_too_long_witness :
  str_encode codecs.ascii (repeat 0x61 (Z.to_nat 32768)) =
  Ok (repeat (byte.of_Z 0x61) (Z.to_nat 32768)) /\
  2 ^ 15 <= Z.of_nat (List.length (repeat (byte.of_Z 0x61) (Z.to_nat 32768))) /\
  encode (String codecs.ascii) (VStr (repeat 0x61 (Z.to_nat 32768))) =
  Raise (ValueError convert_error).
Proof.
  assert (H1 : str_encode codecs.ascii (repeat 0x61 (Z.to_nat 32768)) =
               Ok (repeat (byte.of_Z 0x61) (Z.to_nat 32768))) by apply ascii_repeat.
  assert (H2 : 2 ^ 15 <= Z.of_nat (List.length (repeat (byte.of_Z 0x61) (Z.to_nat 32768))))
    by (rewrite repeat_length, Z2Nat.id by lia; lia).
  split; [exact H1 | split; [exact H2 |]].
  exact (string_too_long codecs.ascii _ _ H1 H2).
Defined.

(** ** TaggedField with a negative tag *)

(** X23.  [TaggedField.encode] does not return for a negative tag: the
    tag goes to [write_unsigned_varint], whose loop does not end for the
    negative values from [-2^32 + 128] on, whatever the value of the field
    is. *)
Theorem tagged_field_negative_tag :
  forall (tag : Z) (val : list byte),
    - 2 ^ 32 + 128 <= tag < 0 ->
    encode TaggedField (VTuple [VInt tag; VBytes val]) = Diverge /\
    encode TaggedField (VTuple [VInt tag; VNone]) = Diverge.
Proof.
  intros tag val Htag.
  assert (Hd : VarInt.write_unsigned_varint tag = Diverge)
    by (apply write_loop_diverges; exact Htag).
  split; cbn [encode]; unfold TaggedField.encode;
    cbn [TaggedField.unpack_pair py_items bind py_index py_len];
    rewrite Hd; reflexivity.
Qed.

Lemma tagged_field_negative_tag_witness :
  - 2 ^ 32 + 128 <= -1 < 0 /\
  encode TaggedField (VTuple [VInt (-1); VBytes []]) = Diverge.
Proof.
  assert (H : - 2 ^ 32 + 128 <= -1 < 0) by lia.
  split; [exact H |].
  exact (proj1 (tagged_field_negative_tag (-1) [] H)).
Defined.

(** ** The cursor only moves forward *)

Lemma advances_ret {A : Type} (a : A) : advances (ret a).
Proof. intros data a' rest [= <- <-]. exists []. reflexivity. Qed.

Lemma advances_raise {A : Type} (e : exn) : advances (@raise A e).
Proof. intros data a rest H. discriminate H. Qed.

Lemma advances_lift {A : Type} (m : result A) : advances (lift m).
Proof.
  intros data a rest H. unfold lift in H.
  destruct m; try discriminate. injection H as <- <-. exists []. reflexivity.
Qed.

Lemma advances_read (n : Z) : advances (read n).
Proof.
  intros data a rest H. unfold read in H.
  destruct (n <? 0); injection H as <- <-.
  - exists data. symmetry. apply app_nil_r.
  - exists (firstn (Z.to_nat n) data). symmetry. apply firstn_skipn.
Qed.

Lemma advances_rbind {A B : Type} (m : reader A) (k : A -> reader B) :
  advances m -> (forall a, advances (k a)) -> advances (rbind m k).
Proof.
  intros Hm Hk data b rest H. unfold rbind in H.
  destruct (m data) as [[a d] | |] eqn:Hmd; try discriminate.
  destruct (Hm _ _ _ Hmd) as (t1 & ->).
  destruct (Hk a _ _ _ H) as (t2 & ->).
  exists (t1 ++ t2). apply app_assoc.
Qed.

Lemma advances_read_loop (fuel : nat) :
  forall value i b : Z, advances (VarInt.read_unsigned_varint_loop fuel value i b).
Proof.
  induction fuel as [| fuel IH]; intros value i b; cbn [VarInt.read_unsigned_varint_loop];
    destruct (negb (Z.land b 128 =? 0)); try apply advances_ret.
  - intros data a rest H. discriminate H.
  - destruct (28 <? i + 7); [apply advances_raise |].
    apply advances_rbind; [| intros b'; apply IH].
    unfold VarInt.read_byte. apply advances_rbind; [apply advances_read |].
    intros l. apply advances_ret.
Qed.

Lemma advances_read_unsigned_varint : advances VarInt.read_unsigned_varint.
Proof.
  unfold VarInt.read_unsigned_varint. apply advances_rbind.
  - unfold VarInt.read_byte. apply advances_rbind; [apply advances_read |].
    intros l. apply advances_ret.
  - intros b. apply advances_read_loop.
Qed.

Lemma advances_len_decoder (cls : Class) :
  cls = String.cls \/ cls = Bytes.cls \/ cls = CompactBytes.cls ->
  advances (len_decoder cls).
Proof.
  intros [-> | [-> | ->]]; cbn [len_decoder String.cls Bytes.cls CompactBytes.cls].
  - unfold Int16.decode. apply advances_rbind; [apply advances_read |].
    intros d. apply advances_lift.
  - unfold Int32.decode. apply advances_rbind; [apply advances_read |].
    intros d. apply advances_lift.
  - unfold VarInt.len_decoder. apply advances_rbind;
      [apply advances_read_unsigned_varint | intros n; apply advances_ret].
Qed.

Lemma advances_fixed (n : Z) (unpack : list byte -> result Z) :
  advances (int_value (d <- read n ;; lift (_unpack unpack d))%reader).
Proof.
  unfold int_value. apply advances_rbind; [| intros z; apply advances_ret].
  apply advances_rbind; [apply advances_read | intros d; apply advances_lift].
Qed.

Lemma advances_string (cls : Class) (encoding : Encoding) :
  advances (len_decoder cls) -> advances (String.decode cls encoding).
Proof.
  intros Hc. unfold String.decode. apply advances_rbind; [exact Hc |].
  intros L. destruct (L <? 0); [apply advances_ret |].
  apply advances_rbind; [apply advances_read |].
  intros b. destruct (negb (Z.of_nat (List.length b) =? L)); [apply advances_raise |].
  apply advances_rbind; [apply advances_lift | intros s; apply advances_ret].
Qed.

Lemma advances_bytes (cls : Class) :
  advances (len_decoder cls) -> advances (Bytes.decode cls).
Proof.
  intros Hc. unfold Bytes.decode. apply advances_rbind; [exact Hc |].
  intros L. destruct (L <? 0); [apply advances_ret |].
  apply advances_rbind; [apply advances_read |].
  intros b. destruct (negb (Z.of_nat (List.length b) =? L));
    [apply advances_raise | apply advances_ret].
Qed.

Lemma advances_array (cls : Class) (array_of : AbstractType) :
  advances (len_decoder cls) ->
  advances (decode array_of) ->
  advances (Array.decode (decode array_of) cls).
Proof.
  intros Hc He. unfold Array.decode. apply advances_rbind; [exact Hc |].
  intros L. destruct (L =? -1); [apply advances_ret |].
  apply advances_rbind; [| intros xs; apply advances_ret].
  induction (Z.to_nat L) as [| n IH]; cbn [Array.decode_items]; [apply advances_ret |].
  apply advances_rbind; [exact He |].
  intros x. apply advances_rbind; [exact IH | intros r; apply advances_ret].
Qed.

(** X24.  Every decoder only moves the cursor forward: when [decode]
    returns, what is left of the buffer is the buffer without a prefix, the
    bytes of the value, for every codec at any depth of nesting.  No decoder
    looks back or puts bytes back. *)
Theorem decode_advances :
  forall (t : AbstractType) (data : Cursor) (v : value) (rest : Cursor),
    decode t data = Ok (v, rest) -> exists taken, data = taken ++ rest.
Proof.
  intros t. change (advances (decode t)).
  assert (H16 : advances (len_decoder String.cls))
    by (apply advances_len_decoder; auto).
  assert (H32 : advances (len_decoder Bytes.cls))
    by (apply advances_len_decoder; auto).
  assert (Hc : advances (len_decoder CompactBytes.cls))
    by (apply advances_len_decoder; auto).
  induction t using AbstractType_induction; cbn [decode].
  - apply (advances_fixed 1).
  - apply (advances_fixed 2).
  - apply (advances_fixed 4).
  - apply (advances_fixed 8).
  - apply advances_rbind; [| intros b; apply advances_ret].
    unfold Boolean.decode. apply advances_rbind; [apply advances_read |].
    intros d. apply advances_lift.
  - apply advances_string. exact H16.
  - apply advances_string. exact Hc.
  - apply advances_bytes. exact H32.
  - apply advances_bytes. exact Hc.
  - unfold Schema.decode. apply advances_rbind; [| intros xs; apply advances_ret].
    induction H as [| [name field] fields Hf _ IH]; cbn [Schema.decode_fields];
      [apply advances_ret |].
    apply advances_rbind; [exact Hf |].
    intros x. apply advances_rbind; [exact IH | intros r; apply advances_ret].
  - apply advances_array; [exact H32 | exact IHt].
  - apply advances_array; [exact Hc | exact IHt].
  - unfold TaggedField.decode.
    apply advances_rbind; [apply advances_read_unsigned_varint |].
    intros tag. apply advances_rbind; [exact Hc |].
    intros size. destruct (0 <? size); [| apply advances_ret].
    apply advances_rbind; [apply advances_read |].
    intros val. destruct (Z.of_nat (List.length val) =? size - 1);
      [apply advances_ret | apply advances_raise].
Qed.

Lemma decode_advances_witness :
  decode (Array Int16) (bytes_of [0; 0; 0; 1; 0; 7; 0x2a]) = Ok (VList [VInt 7], bytes_of [0x2a]) /\
  exists taken, bytes_of [0; 0; 0; 1; 0; 7; 0x2a] = taken ++ bytes_of [0x2a].
Proof.
  assert (H : decode (Array Int16) (bytes_of [0; 0; 0; 1; 0; 7; 0x2a]) =
              Ok (VList [VInt 7], bytes_of [0x2a])) by (vm_compute; reflexivity).
  split; [exact H |].
  exact (decode_advances _ _ _ _ H).
Defined.
